(** * ethercast-backend: the queue drainer and the API authorizer

    A shallow embedding of [src/util/queue-drainer.ts] (the bounded-time
    drain loop over an SQS queue) and of the custom authorizer handler
    (policy generation and the [authorize] entry point), followed by the
    properties of the design document that concern them.

    Conventions.
    - An [async] function is a computation in the monad [M]: it takes the
      state of the outside world (queue, handler, clock), and gives back
      how it settled ([Resolved] or [Rejected]), the new world and the
      calls it made to its collaborators, in order.  [await] is [bind].
    - JavaScript numbers that count things are [nat]; the remaining time
      in milliseconds is a [Z].
    - Optional fields of the AWS SDK types ([MessageId?: string]) are
      [option string]; [None] is [undefined].
    - The [while] loop of [start] takes fuel: the number of budget checks
      it may still make.  [Running] is what is left when fuel runs out at
      the head of the loop. *)

From Stdlib Require Import ZArith List String Ascii Bool Lia.
From stdpp Require Import base gmap strings list.
Import ListNotations.
Local Open Scope string_scope.
Local Open Scope list_scope.
Local Open Scope Z_scope.

(* ===================================================================== *)
(** * Part I: definitions                                                 *)
(* ===================================================================== *)

(** ** What both programs share of JavaScript *)

Module Js.

(** A thrown value.  The programs never look inside one. *)
Inductive Error := MkError (text : string).

(** How a promise settles. *)
Inductive Outcome (A : Type) :=
| Resolved (a : A)
| Rejected (e : Error).
Arguments Resolved {A} a.
Arguments Rejected {A} e.

Inductive LogLevel := LDebug | LInfo | LError.

(** Truthiness of an optional string: [undefined] and [''] are falsy. *)
Definition truthy (s : option string) : bool :=
  match s with
  | Some EmptyString => false
  | Some _ => true
  | None => false
  end.

(** [s.split(sep)] for a one-character separator. *)
Fixpoint split (sep : ascii) (s : string) : list string :=
  match s with
  | EmptyString => [EmptyString]
  | String c rest =>
      if Ascii.eqb c sep then EmptyString :: split sep rest
      else
        match split sep rest with
        | [] => [String c EmptyString]
        | piece :: pieces => String c piece :: pieces
        end
  end.

(** [parts.join(sep)] *)
Fixpoint join (sep : string) (parts : list string) : string :=
  match parts with
  | [] => EmptyString
  | [part] => part
  | part :: rest => (part ++ sep ++ join sep rest)%string
  end.

Definition lowerChar (c : ascii) : ascii :=
  let k := nat_of_ascii c in
  if ((65 <=? k) && (k <=? 90))%nat then ascii_of_nat (k + 32) else c.

(** The letters A to Z in lower case, every other character kept.  This
    is not [String.prototype.toLowerCase], which also maps letters
    outside ASCII (the Kelvin sign to k, for one); the programs take
    that built-in from their environment.  The scripted environments
    use [lowerAscii] in its place. *)
Fixpoint lowerAscii (s : string) : string :=
  match s with
  | EmptyString => EmptyString
  | String c rest => String (lowerChar c) (lowerAscii rest)
  end.

End Js.

Module QueueDrainer.
Export Js.

(** ** Data of the transport (aws-sdk/clients/sqs) *)

Record Message := {
  MessageId : option string;
  ReceiptHandle : option string;
  Body : option string
}.

(** An entry of a [DeleteMessageBatchRequest].  The SDK type wants both
    fields to be strings; the source builds the list under [as any], so
    either may be [undefined]. *)
Record DeleteMessageBatchRequestEntry := {
  Id : option string;
  EntryReceiptHandle : option string
}.

Record ReceiveMessageResult := { Messages : option (list Message) }.

(** [Failed] lists the ids the transport could not delete although the
    call itself succeeded. *)
Record DeleteMessageBatchResult := { Failed : list string }.

(** ** What the drainer does to the outside, as events *)

Inductive LogValue :=
| LNum (n : nat)
| LErr (e : Error)
| LMsg (m : Message).

Inductive Event :=
| EvLog (level : LogLevel) (fields : list (string * LogValue)) (text : string)
| EvRemainingTime (t : Z)
| EvReceive (url : string) (maxNumberOfMessages : nat)
            (r : Outcome ReceiveMessageResult)
| EvHandleBegin (m : Message)
| EvHandleEnd (m : Message) (r : Outcome unit)
| EvDeleteMessage (url : string) (receipt : string) (r : Outcome unit)
| EvDeleteBatch (url : string) (entries : list DeleteMessageBatchRequestEntry)
                (r : Outcome DeleteMessageBatchResult).

(** ** Collaborators, as state transformers on a world [W] *)

Record SQS (W : Type) := {
  receiveMessage : string -> nat -> W -> Outcome ReceiveMessageResult * W;
  sqsDeleteMessage : string -> string -> W -> Outcome unit * W;
  deleteMessageBatch :
    string -> list DeleteMessageBatchRequestEntry -> W ->
    Outcome DeleteMessageBatchResult * W
}.
Arguments receiveMessage {W} _ _ _ _.
Arguments sqsDeleteMessage {W} _ _ _ _.
Arguments deleteMessageBatch {W} _ _ _ _.

(** The fields of the class, as the constructor stores them. *)
Record Drainer (W : Type) := {
  sqs : SQS W;
  queueUrl : string;
  handleMessage : Message -> W -> Outcome unit * W;
  getRemainingTime : W -> Z * W
}.
Arguments sqs {W} _.
Arguments queueUrl {W} _.
Arguments handleMessage {W} _ _ _.
Arguments getRemainingTime {W} _ _.

(** Where the loop stands: finished, or cut at the head of the loop for
    lack of fuel.  Both carry [processedMessageCount] and [pollCount]. *)
Inductive LoopState :=
| Done (processedMessageCount pollCount : nat)
| Running (processedMessageCount pollCount : nat).

Section Model.
Context {W : Type}.

(** ** The monad of asynchronous computations *)

Definition M (A : Type) : Type := W -> Outcome A * W * list Event.

Definition ret {A} (a : A) : M A := fun w => (Resolved a, w, []).

Definition throw {A} (e : Error) : M A := fun w => (Rejected e, w, []).

Definition bind {A B} (m : M A) (k : A -> M B) : M B :=
  fun w =>
    match m w with
    | (Resolved a, w1, t1) =>
        match k a w1 with
        | (r, w2, t2) => (r, w2, t1 ++ t2)
        end
    | (Rejected e, w1, t1) => (Rejected e, w1, t1)
    end.

(** [try { body } catch (err) { handler(err) }] *)
Definition try_catch {A} (body : M A) (handler : Error -> M A) : M A :=
  fun w =>
    match body w with
    | (Resolved a, w1, t1) => (Resolved a, w1, t1)
    | (Rejected e, w1, t1) =>
        match handler e w1 with
        | (r, w2, t2) => (r, w2, t1 ++ t2)
        end
    end.

Definition result_of {A} (x : Outcome A * W * list Event) : Outcome A :=
  fst (fst x).
Definition world_of {A} (x : Outcome A * W * list Event) : W :=
  snd (fst x).
Definition trace_of {A} (x : Outcome A * W * list Event) : list Event :=
  snd x.

Notation "x <- m ;; k" := (bind m (fun x => k))
  (at level 100, m at next level, right associativity).
Notation "m ;;; k" := (bind m (fun _ => k))
  (at level 100, right associativity).

Definition log (level : LogLevel) (fields : list (string * LogValue))
    (text : string) : M unit :=
  fun w => (Resolved tt, w, [EvLog level fields text]).

Variable this : Drainer W.

(** ** Calls to the collaborators, each leaving its event *)

Definition callReceiveMessage (url : string) (n : nat)
    : M ReceiveMessageResult :=
  fun w =>
    match receiveMessage (sqs this) url n w with
    | (r, w1) => (r, w1, [EvReceive url n r])
    end.

Definition callDeleteMessage (url receipt : string) : M unit :=
  fun w =>
    match sqsDeleteMessage (sqs this) url receipt w with
    | (r, w1) => (r, w1, [EvDeleteMessage url receipt r])
    end.

Definition callDeleteMessageBatch (url : string)
    (entries : list DeleteMessageBatchRequestEntry)
    : M DeleteMessageBatchResult :=
  fun w =>
    match deleteMessageBatch (sqs this) url entries w with
    | (r, w1) => (r, w1, [EvDeleteBatch url entries r])
    end.

Definition callHandleMessage (message : Message) : M unit :=
  fun w =>
    match handleMessage this message w with
    | (r, w1) => (r, w1, [EvHandleBegin message; EvHandleEnd message r])
    end.

Definition callGetRemainingTime : M Z :=
  fun w =>
    match getRemainingTime this w with
    | (t, w1) => (Resolved t, w1, [EvRemainingTime t])
    end.

(** ** The methods of the class *)

(** [poll(numMessages = 10)]: [response.Messages || []]. *)
Definition poll (numMessages : nat) : M (list Message) :=
  response <- callReceiveMessage (queueUrl this) numMessages ;;
  ret (match Messages response with
       | Some messages => messages
       | None => []
       end).

(** The private single-message removal (no caller in the class). *)
Definition deleteMessage (message : Message) : M unit :=
  if negb (truthy (ReceiptHandle message)) then
    throw (MkError "missing receipt handle")
  else
    try_catch
      (callDeleteMessage (queueUrl this)
         (match ReceiptHandle message with Some h => h | None => "" end))
      (fun err =>
         log LError [("err", LErr err); ("message", LMsg message)]
           "failed to delete message").

Definition toEntry (m : Message) : DeleteMessageBatchRequestEntry :=
  {| Id := MessageId m; EntryReceiptHandle := ReceiptHandle m |}.

Definition deleteMessages (messages : list Message) : M unit :=
  log LDebug [("messageCount", LNum (length messages))]
    "deleting messages" ;;;
  let Entries := map toEntry messages in
  _ <- callDeleteMessageBatch (queueUrl this) Entries ;;
  log LDebug [("messageCount", LNum (length messages))] "deleted messages".

(** The [for] loop of [processMessages], from index [i] on. *)
Fixpoint handleEach (messages : list Message) : M unit :=
  match messages with
  | [] => ret tt
  | message :: rest => callHandleMessage message ;;; handleEach rest
  end.

Definition processMessages (messages : list Message) : M unit :=
  log LDebug [("messageCount", LNum (length messages))]
    "processing messages" ;;;
  handleEach messages.

(** The body of the [while] loop of [start]; gives the two counters as
    the body leaves them. *)
Definition iteration (processedMessageCount pollCount : nat)
    : M (nat * nat) :=
  (if Nat.eqb (pollCount mod 5)%nat 0 then
     log LInfo [("pollCount", LNum pollCount);
                ("processedMessageCount", LNum processedMessageCount)]
       "polling..."
   else
     log LDebug [("pollCount", LNum pollCount);
                 ("processedMessageCount", LNum processedMessageCount)]
       "polling...") ;;;
  messages <- poll 10 ;;
  processMessages messages ;;;
  deleteMessages messages ;;;
  ret ((processedMessageCount + length messages)%nat, (pollCount + 1)%nat).

Definition margin : Z := 3000.

Fixpoint loop (fuel : nat) (processedMessageCount pollCount : nat)
    : M LoopState :=
  match fuel with
  | O => ret (Running processedMessageCount pollCount)
  | S fuel' =>
      remaining <- callGetRemainingTime ;;
      if margin <? remaining then
        counters <- iteration processedMessageCount pollCount ;;
        loop fuel' (fst counters) (snd counters)
      else
        ret (Done processedMessageCount pollCount)
  end.

Definition start (fuel : nat) : M LoopState :=
  final <- loop fuel 0%nat 0%nat ;;
  match final with
  | Done processedMessageCount pollCount =>
      log LDebug [("processedMessageCount", LNum processedMessageCount);
                  ("pollCount", LNum pollCount)]
        "finished draining queue" ;;;
      ret final
  | Running _ _ => ret final
  end.

End Model.

End QueueDrainer.

(** ** Observations on a trace

    What a test harness would read off the calls recorded by mocked
    collaborators.  None of this is code of the drainer. *)

Module Trace.
Import QueueDrainer.

#[global] Instance Error_eq_dec : EqDecision Error.
Proof. solve_decision. Defined.

#[global] Instance Entry_eq_dec : EqDecision DeleteMessageBatchRequestEntry.
Proof. solve_decision. Defined.

Definition batchOf (r : ReceiveMessageResult) : list Message :=
  match Messages r with
  | Some messages => messages
  | None => []
  end.

(** The messages the handler was started on, in order. *)
Fixpoint handledMessages (tr : list Event) : list Message :=
  match tr with
  | [] => []
  | EvHandleBegin m :: rest => m :: handledMessages rest
  | _ :: rest => handledMessages rest
  end.

(** The entry lists of the batched removal requests, in order. *)
Fixpoint deleteRequests (tr : list Event)
    : list (list DeleteMessageBatchRequestEntry) :=
  match tr with
  | [] => []
  | EvDeleteBatch _ entries _ :: rest => entries :: deleteRequests rest
  | _ :: rest => deleteRequests rest
  end.

(** The number of [receiveMessage] calls. *)
Fixpoint pollCalls (tr : list Event) : nat :=
  match tr with
  | [] => O
  | EvReceive _ _ _ :: rest => S (pollCalls rest)
  | _ :: rest => pollCalls rest
  end.

(** The batches the polls delivered, in order. *)
Fixpoint polledBatches (tr : list Event) : list (list Message) :=
  match tr with
  | [] => []
  | EvReceive _ _ (Resolved r) :: rest => batchOf r :: polledBatches rest
  | _ :: rest => polledBatches rest
  end.

(** The samples of the remaining time, in order. *)
Fixpoint budgetSamples (tr : list Event) : list Z :=
  match tr with
  | [] => []
  | EvRemainingTime t :: rest => t :: budgetSamples rest
  | _ :: rest => budgetSamples rest
  end.

(** The log lines at level [error]. *)
Fixpoint errorLogs (tr : list Event) : list string :=
  match tr with
  | [] => []
  | EvLog LError _ text :: rest => text :: errorLogs rest
  | _ :: rest => errorLogs rest
  end.

Definition totalSize (batches : list (list Message)) : nat :=
  fold_right (fun b n => (length b + n)%nat) O batches.

(** A scan of the trace by an automaton that may refuse an event. *)
Fixpoint scan {S : Type} (step : S -> Event -> option S) (s : S)
    (tr : list Event) : option S :=
  match tr with
  | [] => Some s
  | e :: rest =>
      match step s e with
      | Some s' => scan step s' rest
      | None => None
      end
  end.

Definition accepted {S : Type} (o : option S) : bool :=
  match o with Some _ => true | None => false end.






(** Events of the handler only. *)
Definition handlerEvent (ev : Event) : Prop :=
  match ev with
  | EvHandleBegin _ | EvHandleEnd _ _ => True
  | _ => False
  end.

(** The line logged at the head of an iteration. *)
Definition pollingLine (processedMessageCount pollCount : nat) : Event :=
  EvLog (if Nat.eqb (pollCount mod 5)%nat 0 then LInfo else LDebug)
    [("pollCount", LNum pollCount);
     ("processedMessageCount", LNum processedMessageCount)]
    "polling...".

Definition processingLine (n : nat) : Event :=
  EvLog LDebug [("messageCount", LNum n)] "processing messages".

Definition deletingLine (n : nat) : Event :=
  EvLog LDebug [("messageCount", LNum n)] "deleting messages".

Definition deletedLine (n : nat) : Event :=
  EvLog LDebug [("messageCount", LNum n)] "deleted messages".

Definition finishedLine (processedMessageCount pollCount : nat) : Event :=
  EvLog LDebug [("processedMessageCount", LNum processedMessageCount);
                ("pollCount", LNum pollCount)]
    "finished draining queue".

End Trace.

(** ** A scripted world

    The queue, the handler and the clock of a test: the clock and the
    queue read their answers off lists, the handler's verdict is a
    function of the message. *)

Module Mock.
Import QueueDrainer.

Record World := {
  clock : list Z;
  inbox : list (Outcome ReceiveMessageResult);
  verdict : Message -> Outcome unit;
  removals : list (Outcome DeleteMessageBatchResult);
  singleRemovals : list (Outcome unit)
}.

Definition tick (w : World) : Z * World :=
  match clock w with
  | [] => (0, w)
  | t :: later =>
      (t, {| clock := later; inbox := inbox w; verdict := verdict w;
             removals := removals w; singleRemovals := singleRemovals w |})
  end.

Definition receive (_ : string) (_ : nat) (w : World)
    : Outcome ReceiveMessageResult * World :=
  match inbox w with
  | [] => (Resolved {| Messages := None |}, w)
  | r :: later =>
      (r, {| clock := clock w; inbox := later; verdict := verdict w;
             removals := removals w; singleRemovals := singleRemovals w |})
  end.

Definition removeBatch (_ : string)
    (_ : list DeleteMessageBatchRequestEntry) (w : World)
    : Outcome DeleteMessageBatchResult * World :=
  match removals w with
  | [] => (Resolved {| Failed := [] |}, w)
  | r :: later =>
      (r, {| clock := clock w; inbox := inbox w; verdict := verdict w;
             removals := later; singleRemovals := singleRemovals w |})
  end.

Definition removeOne (_ _ : string) (w : World) : Outcome unit * World :=
  match singleRemovals w with
  | [] => (Resolved tt, w)
  | r :: later =>
      (r, {| clock := clock w; inbox := inbox w; verdict := verdict w;
             removals := removals w; singleRemovals := later |})
  end.

Definition handle (m : Message) (w : World) : Outcome unit * World :=
  (verdict w m, w).

Definition drainer : Drainer World :=
  {| sqs := {| receiveMessage := receive;
               sqsDeleteMessage := removeOne;
               deleteMessageBatch := removeBatch |};
     queueUrl := "https://sqs.example/queue";
     handleMessage := handle;
     getRemainingTime := tick |}.

Definition msg (id : string) : Message :=
  {| MessageId := Some id;
     ReceiptHandle := Some (id ++ "-receipt")%string;
     Body := Some "{}" |}.

Definition delivers (batch : list Message) : Outcome ReceiveMessageResult :=
  Resolved {| Messages := Some batch |}.

Definition alwaysOk (_ : Message) : Outcome unit := Resolved tt.

(** Rejects the message whose id is [id], accepts the others. *)
Definition failsOn (id : string) (m : Message) : Outcome unit :=
  if bool_decide (MessageId m = Some id)
  then Rejected (MkError "handler failed")
  else Resolved tt.

Definition threeMessages : list Message := [msg "a"; msg "b"; msg "c"].

(** The budget scenario: the clock reads 10000, 6000, 2000; the two
    polls deliver [b1] and [b2]; nothing fails. *)
Definition budgetScenario (b1 b2 : list Message) : World :=
  {| clock := [10000; 6000; 2000];
     inbox := [delivers b1; delivers b2];
     verdict := alwaysOk;
     removals := [];
     singleRemovals := [] |}.

(** The removal-failure scenario: plenty of time, a batch of three, and
    the transport rejects the batched removal. *)
Definition deleteFailureScenario : World :=
  {| clock := [10000; 10000; 10000; 0];
     inbox := [delivers threeMessages];
     verdict := alwaysOk;
     removals := [Rejected (MkError "transport unavailable")];
     singleRemovals := [] |}.

(** A delivery whose receipt handle is missing. *)
Definition noReceipt : Message :=
  {| MessageId := Some "m1"; ReceiptHandle := None; Body := Some "{}" |}.

Definition missingTokenScenario : World :=
  {| clock := [10000; 0];
     inbox := [delivers [noReceipt]];
     verdict := alwaysOk;
     removals := [];
     singleRemovals := [] |}.

(** A handler failure on the second of three messages. *)
Definition handlerFailureScenario : World :=
  {| clock := [10000; 10000; 0];
     inbox := [delivers threeMessages; delivers []];
     verdict := failsOn "b";
     removals := [];
     singleRemovals := [] |}.

(** An idle queue: the transport answers without a [Messages] field. *)
Definition idleScenario : World :=
  {| clock := [10000; 0];
     inbox := [Resolved {| Messages := None |}];
     verdict := alwaysOk;
     removals := [];
     singleRemovals := [] |}.


(** A batch of three about to be polled; nothing fails. *)
Definition steadyScenario : World :=
  {| clock := [0];
     inbox := [delivers threeMessages];
     verdict := alwaysOk;
     removals := [];
     singleRemovals := [] |}.

(** The transport rejects the removal of a single message. *)
Definition singleDeleteFailureScenario : World :=
  {| clock := [];
     inbox := [];
     verdict := alwaysOk;
     removals := [];
     singleRemovals := [Rejected (MkError "transport unavailable")] |}.

End Mock.

(** ** The authorizer *)

Module Authorizer.
Export Js.

Record AuthResult := { user : string; scope : string }.

Record Statement := { Action : string; Effect : string; Resource : string }.

Record PolicyDocument := {
  Version : string;
  Statements : list Statement
}.

Record AuthContext := { contextUser : string; contextScope : string }.

(** The object [generatePolicy] returns.  A key the spread leaves out is
    [None]. *)
Record Policy := {
  principalId : option string;
  context : option AuthContext;
  policyDocument : PolicyDocument
}.

Definition generatePolicy (result : option AuthResult) : Policy :=
  {| principalId :=
       match result with
       | Some r => Some (user r)
       | None => None
       end;
     context :=
       match result with
       | Some r => Some {| contextUser := user r; contextScope := scope r |}
       | None => None
       end;
     policyDocument :=
       {| Version := "2012-10-17";
          Statements :=
            [ {| Action := "execute-api:Invoke";
                 Effect := "Allow";
                 Resource := "*" |} ] |} |}.

(** The one statement every policy carries. *)
Definition allowInvoke : Statement :=
  {| Action := "execute-api:Invoke"; Effect := "Allow"; Resource := "*" |}.

(** A header value.  Strings are sequences of bytes (UTF-8); [JsOther]
    is a number or a boolean; an object is a plain object as
    [JSON.parse] builds it, given by its own properties in insertion
    order (a later duplicate of a key overrides an earlier one); of an
    array only the fact that it is one matters here. *)
#[local] Unset Elimination Schemes.
Inductive JsValue :=
| JsUndefined
| JsNull
| JsString (s : string)
| JsOther
| JsObject (props : list (string * JsValue))
| JsArray (items : list JsValue).
#[local] Set Elimination Schemes.

(** [event.headers] as its own keys, in [Object.keys] order, each with
    its value; [None] when the event has no headers object. *)
Record AuthEvent := { headers : option (list (string * JsValue)) }.

Record Jwk := { kty : string; n : string; e : string }.

(** A stored key.  [secret] is [None] when the item has no such
    attribute. *)
Record ApiKey := {
  secret : option string;
  keyUser : string;
  scopes : list string
}.

(** What [jwt.verify] hands to its callback: an error, or the decoded
    token. *)
Inductive Verification :=
| VerifyFails (err : Error)
| Verified (sub scope : string).

(** What one invocation takes from outside the source: the key set
    ([getJwks], then [.keys]), [jwkToPem], [jwt.verify] (rejected when
    it throws instead of calling back), the key store ([crud.get]), and
    the built-in [String.prototype.toLowerCase], whose tables are not
    part of the program. *)
Record Env := {
  getJwks : Outcome (list Jwk);
  jwkToPem : Jwk -> Outcome string;
  jwtVerify : string -> string -> Outcome Verification;
  crudGet : string -> Outcome (option ApiKey);
  toLowerCase : string -> string
}.

(** What an invocation does to the outside. *)
Inductive Output :=
| Logged (level : LogLevel) (text : string)
| Callback (err : option Error) (policy : Policy).

(** An invocation: its effects in order, and how its promise settles. *)
Definition Run : Type := list Output * Outcome unit.

Definition andThen (first : list Output) (rest : Run) : Run :=
  (first ++ fst rest, snd rest).

Definition unauthorized : Run :=
  ([Callback None (generatePolicy None)], Resolved tt).

Definition authorized (user scope : string) : Run :=
  ([Callback None (generatePolicy (Some {| user := user; scope := scope |}))],
   Resolved tt).

Definition jwtCb (next : string -> string -> Run) (v : Verification) : Run :=
  match v with
  | VerifyFails err => andThen [Logged LInfo "Unauthorized user"] unauthorized
  | Verified sub scope => next sub scope
  end.

Definition authorizeBearer (env : Env) (token : string) : Run :=
  let caught : Run :=
    andThen [Logged LError "failed to authorize bearer token"] unauthorized in
  match getJwks env with
  | Rejected _ => caught
  | Resolved keys =>
      match keys with
      | [] => caught
      | k :: _ =>
          let jwkArray := {| kty := kty k; n := n k; e := e k |} in
          match jwkToPem env jwkArray with
          | Rejected _ => caught
          | Resolved pem =>
              match jwtVerify env token pem with
              | Rejected _ => caught
              | Resolved v =>
                  jwtCb (fun sub scope =>
                           andThen [Logged LInfo "Authorized user"]
                             (authorized sub scope)) v
              end
          end
      end
  end.

Definition authorizeApiKey (env : Env) (token : string) : Run :=
  let parts := split ":" token in
  let keyId := nth O parts EmptyString in
  let secret_ := nth_error parts 1 in
  match crudGet env keyId with
  | Rejected err => ([], Rejected err)
  | Resolved None => andThen [Logged LInfo "API key not found"] unauthorized
  | Resolved (Some retrievedKey) =>
      if bool_decide (secret retrievedKey = secret_) then
        andThen [Logged LInfo "Authorized API Key"]
          (authorized (keyUser retrievedKey) (join " " (scopes retrievedKey)))
      else
        andThen [Logged LInfo "API secret does not match"] unauthorized
  end.

(** The own property [key] of a plain object. *)
Fixpoint ownProperty (key : string) (props : list (string * JsValue))
    : option JsValue :=
  match props with
  | [] => None
  | (k, v) :: rest =>
      match ownProperty key rest with
      | Some later => Some later
      | None => if bool_decide (k = key) then Some v else None
      end
  end.

(** What an object built from [{}] inherits from: [Object.prototype]
    as at first, nothing at all ([null]), or a plain object or an array
    that was assigned to [__proto__] (of an array, no named property
    matters here: it counts as a plain object without properties). *)
Inductive Prototype :=
| ObjectPrototype
| NullPrototype
| PlainPrototype (props : list (string * JsValue)).

(** The accumulator of the [reduce]: its own properties and its
    prototype. *)
Record HeaderObject := {
  own : gmap string JsValue;
  prototype : Prototype
}.

Definition emptyObject : HeaderObject :=
  {| own := ∅; prototype := ObjectPrototype |}.

(** [headers[key] = value].  Every key makes or updates an own property,
    except [__proto__] as long as it resolves to the accessor of
    [Object.prototype]: that is, unless the object has an own
    [__proto__] already, inherits from nothing, or inherits from a plain
    object that has [__proto__] as an own property.  The accessor makes
    an object, an array or [null] the new prototype and ignores every
    other value. *)
Definition assign (key : string) (value : JsValue) (o : HeaderObject)
    : HeaderObject :=
  if bool_decide (key = "__proto__") then
    let asOwn :=
      match own o !! "__proto__" with
      | Some _ => true
      | None =>
          match prototype o with
          | ObjectPrototype => false
          | NullPrototype => true
          | PlainPrototype props =>
              match ownProperty "__proto__" props with
              | Some _ => true
              | None => false
              end
          end
      end in
    if asOwn then
      {| own := <["__proto__" := value]> (own o); prototype := prototype o |}
    else
      match value with
      | JsObject props => {| own := own o; prototype := PlainPrototype props |}
      | JsArray _ => {| own := own o; prototype := PlainPrototype [] |}
      | JsNull => {| own := own o; prototype := NullPrototype |}
      | _ => o
      end
  else {| own := <[key := value]> (own o); prototype := prototype o |}.

(** [headers.authorization]: the own property, or else the one of the
    prototype; [Object.prototype] has none. *)
Definition readAuthorization (o : HeaderObject) : JsValue :=
  match own o !! "authorization" with
  | Some value => value
  | None =>
      match prototype o with
      | PlainPrototype props =>
          match ownProperty "authorization" props with
          | Some value => value
          | None => JsUndefined
          end
      | _ => JsUndefined
      end
  end.

(** The [reduce] over [Object.keys(event.headers)], with [lower] for
    [toLowerCase]. *)
Definition lowerCaseHeaders (lower : string -> string)
    (hs : list (string * JsValue)) : HeaderObject :=
  fold_left (fun acc h => assign (lower (fst h)) (snd h) acc) hs emptyObject.

Definition authorize (env : Env) (event : AuthEvent) : Run :=
  andThen [Logged LDebug "Auth function invoked"]
    match headers event with
    | None =>
        ([], Rejected
               (MkError "TypeError: Cannot convert undefined or null to object"))
    | Some hs =>
        match readAuthorization (lowerCaseHeaders (toLowerCase env) hs) with
        | JsString authorization =>
            if Nat.eqb (String.length authorization) 0 then
              andThen [Logged LInfo "Missing authorization header"]
                unauthorized
            else
              match split " " authorization with
              | [type; token] =>
                  let kind := toLowerCase env type in
                  if bool_decide (kind = "bearer") then
                    authorizeBearer env token
                  else if bool_decide (kind = "api-key") then
                    authorizeApiKey env token
                  else
                    andThen [Logged LInfo "Invalid authorization type given"]
                      unauthorized
              | _ =>
                  andThen
                    [Logged LInfo "Incorrect authorization header format"]
                    unauthorized
              end
        | _ =>
            andThen [Logged LInfo "Missing authorization header"] unauthorized
        end
    end.

(** The policies handed to the callback, in order. *)
Fixpoint callbacks (effects : list Output) : list Policy :=
  match effects with
  | [] => []
  | Callback _ policy :: rest => policy :: callbacks rest
  | Logged _ _ :: rest => callbacks rest
  end.

(** An output that, if it is a call of the callback, passes no error
    and a policy made by [generatePolicy]. *)
Definition generated (o : Output) : Prop :=
  match o with
  | Callback err policy =>
      err = None /\ exists result, policy = generatePolicy result
  | Logged _ _ => True
  end.

(** A key store with one key, and a key set whose token check accepts
    the token [good]. *)
Definition demoEnv : Env :=
  {| getJwks := Resolved [ {| kty := "RSA"; n := "n"; e := "AQAB" |} ];
     jwkToPem := fun _ => Resolved "pem";
     jwtVerify := fun token _ =>
       if bool_decide (token = "good")
       then Resolved (Verified "alice" "read write")
       else Resolved (VerifyFails (MkError "invalid signature"));
     crudGet := fun keyId =>
       if bool_decide (keyId = "k1") then
         Resolved (Some {| secret := Some "s3cret"; keyUser := "bob";
                           scopes := ["read"; "write"] |})
       else Resolved None;
     toLowerCase := lowerAscii |}.

Definition withAuthorization (value : string) : AuthEvent :=
  {| headers := Some [("Host", JsString "api.example");
                      ("Authorization", JsString value)] |}.

End Authorizer.


(** ** Further observations on a trace *)

Module Discipline.
Import QueueDrainer Trace.

#[global] Instance LogLevel_eq_dec : EqDecision LogLevel.
Proof. solve_decision. Defined.

(** Handling discipline: a batched removal request is accepted only if
    it lists, in order, exactly the messages whose handling has ended
    well since the last poll. *)
Definition handlingStep (build : Message -> DeleteMessageBatchRequestEntry)
    (handled : list Message) (e : Event) : option (list Message) :=
  match e with
  | EvReceive _ _ _ => Some []
  | EvHandleEnd m (Resolved _) => Some (handled ++ [m])
  | EvDeleteBatch _ entries _ =>
      if bool_decide (entries = map build handled) then Some handled
      else None
  | _ => Some handled
  end.

Definition deletesOnlyHandled
    (build : Message -> DeleteMessageBatchRequestEntry) (tr : list Event)
    : bool :=
  accepted (scan (handlingStep build) [] tr).

(** What [start] may do to the outside: sample the clock, call the
    handler, poll the queue at [url] for [batchSize] messages, send a
    batched removal to [url], and log below error level.  It does not
    remove single messages. *)
Definition emitted (url : string) (batchSize : nat) (ev : Event) : Prop :=
  match ev with
  | EvLog level _ _ => level <> LError
  | EvReceive u k _ => u = url /\ k = batchSize
  | EvDeleteBatch u _ _ => u = url
  | EvDeleteMessage _ _ _ => False
  | _ => True
  end.

Fixpoint numField (name : string) (fields : list (string * LogValue))
    : option nat :=
  match fields with
  | [] => None
  | (key, value) :: rest =>
      if bool_decide (key = name) then
        match value with
        | LNum k => Some k
        | _ => None
        end
      else numField name rest
  end.

(** The lines 'polling...' of a trace: level, [pollCount] and
    [processedMessageCount] of each, in order. *)
Fixpoint pollingLines (tr : list Event)
    : list (LogLevel * option nat * option nat) :=
  match tr with
  | [] => []
  | EvLog level fields text :: rest =>
      if bool_decide (text = "polling...") then
        (level, numField "pollCount" fields,
         numField "processedMessageCount" fields) :: pollingLines rest
      else pollingLines rest
  | _ :: rest => pollingLines rest
  end.

(** The level of the line of the cycle that starts with [pollCount]
    polls made. *)
Definition levelOfCycle (pollCount : nat) : LogLevel :=
  if Nat.eqb (pollCount mod 5)%nat 0 then LInfo else LDebug.

(** The lines to expect from [cycles] cycles that start at the counters
    [processed] and [polls] and poll [batches]. *)
Definition expectedLines (processed polls : nat)
    (batches : list (list Message)) (cycles : nat)
    : list (LogLevel * option nat * option nat) :=
  map (fun i =>
         (levelOfCycle (polls + i),
          Some (polls + i)%nat,
          Some (processed + totalSize (firstn i batches))%nat))
      (seq 0 cycles).

Definition aboveMargin (t : Z) : bool := 3000 <? t.

End Discipline.

(** ** The handler, seen from its own side *)

Module Handling.
Import QueueDrainer.

(** The handler called on the messages one after the other, each call
    starting in the world the previous call left and each resolving:
    from [w] this ends in [w']. *)
Inductive HandledInOrder {W : Type} (this : Drainer W)
    : list Message -> W -> W -> Prop :=
| handled_none (w : W) : HandledInOrder this [] w w
| handled_next (m : Message) (rest : list Message) (w w1 w2 : W) :
    handleMessage this m w = (Resolved tt, w1) ->
    HandledInOrder this rest w1 w2 ->
    HandledInOrder this (m :: rest) w w2.

(** The same drainer with a handler that keeps a record: it appends each
    message it is called on to a list in the world, then does what the
    handler of [this] does.  The other collaborators leave the record
    alone. *)
Definition recording {W : Type} (this : Drainer W)
    : Drainer (W * list Message) :=
  {| sqs :=
       {| receiveMessage := fun url k st =>
            match receiveMessage (sqs this) url k (fst st) with
            | (r, w1) => (r, (w1, snd st))
            end;
          sqsDeleteMessage := fun url receipt st =>
            match sqsDeleteMessage (sqs this) url receipt (fst st) with
            | (r, w1) => (r, (w1, snd st))
            end;
          deleteMessageBatch := fun url entries st =>
            match deleteMessageBatch (sqs this) url entries (fst st) with
            | (r, w1) => (r, (w1, snd st))
            end |};
     queueUrl := queueUrl this;
     handleMessage := fun m st =>
       match handleMessage this m (fst st) with
       | (r, w1) => (r, (w1, snd st ++ [m]))
       end;
     getRemainingTime := fun st =>
       match getRemainingTime this (fst st) with
       | (t, w1) => (t, (w1, snd st))
       end |}.

End Handling.

(** ** Further scripted worlds *)

Module MoreScenarios.
Import QueueDrainer Mock.

(** A first cycle that goes well, then a handler failure on the second
    of three messages in the second cycle. *)
Definition laterFailureScenario : World :=
  {| clock := [10000; 9000; 8000; 0];
     inbox := [delivers [msg "x"]; delivers threeMessages; delivers []];
     verdict := failsOn "b";
     removals := [];
     singleRemovals := [] |}.

(** An idle queue whose transport rejects the removal request. *)
Definition idleDeleteFailureScenario : World :=
  {| clock := [10000; 10000; 0];
     inbox := [Resolved {| Messages := None |}];
     verdict := alwaysOk;
     removals := [Rejected (MkError "EmptyBatchRequest")];
     singleRemovals := [] |}.

(** The transport rejects the poll. *)
Definition pollFailureScenario : World :=
  {| clock := [10000; 10000];
     inbox := [Rejected (MkError "throttled")];
     verdict := alwaysOk;
     removals := [];
     singleRemovals := [] |}.

(** A delivery whose receipt handle is the empty string. *)
Definition emptyReceipt : Message :=
  {| MessageId := Some "m2"; ReceiptHandle := Some ""; Body := None |}.

End MoreScenarios.

(** ** The cached key set of the authorizer *)

Module Jwks.
Import Authorizer.

(** What [fetch] resolves with: the status, and what [response.json()]
    gives (the keys of the body, or a rejection when it does not parse). *)
Record Response := {
  status : Z;
  json : Outcome (list Jwk)
}.

(** The [.then] after [fetch]. *)
Definition checkResponse (r : Outcome Response) : Outcome (list Jwk) :=
  match r with
  | Rejected err => Rejected err
  | Resolved response =>
      if negb (status response =? 200) then
        Rejected (MkError "failed to get jwts")
      else json response
  end.

(** The closure variable [cachedJwts] (a promise, here as it settles) and
    the network [N] behind [fetch]. *)
Record State (N : Type) := {
  cachedJwts : option (Outcome (list Jwk));
  network : N
}.
Arguments cachedJwts {N} _.
Arguments network {N} _.

Section Cache.
Context {N : Type}.
Variable fetch : string -> N -> Outcome Response * N.
Variable issuer : string.

(** One call of [getJwks]: the promise returned, the new state, and the
    URLs fetched. *)
Definition getJwks (st : State N)
    : Outcome (list Jwk) * State N * list string :=
  match cachedJwts st with
  | Some promise => (promise, st, [])
  | None =>
      let url := (issuer ++ ".well-known/jwks.json")%string in
      match fetch url (network st) with
      | (r, network') =>
          let promise := checkResponse r in
          (promise, {| cachedJwts := Some promise; network := network' |},
           [url])
      end
  end.

(** [calls] successive calls: the promises returned, the final state and
    the URLs fetched, all in order. *)
Fixpoint getJwksRepeatedly (calls : nat) (st : State N)
    : list (Outcome (list Jwk)) * State N * list string :=
  match calls with
  | O => ([], st, [])
  | S calls' =>
      match getJwks st with
      | (promise, st1, urls1) =>
          match getJwksRepeatedly calls' st1 with
          | (promises, st2, urls2) =>
              (promise :: promises, st2, urls1 ++ urls2)
          end
      end
  end.

End Cache.

(** A network that answers from a script, and 503 once it runs out. *)
Definition scripted (_ : string) (answers : list (Outcome Response))
    : Outcome Response * list (Outcome Response) :=
  match answers with
  | [] => (Resolved {| status := 503; json := Resolved [] |}, [])
  | answer :: later => (answer, later)
  end.

Definition coldStart (answers : list (Outcome Response))
    : State (list (Outcome Response)) :=
  {| cachedJwts := None; network := answers |}.

End Jwks.

(** ** Helpers to state the properties of the authorizer *)

Module AuthorizerAux.
Import Authorizer.

(** Does the character occur in the string? *)
Fixpoint occurs (c : ascii) (s : string) : bool :=
  match s with
  | EmptyString => false
  | String c' rest => Ascii.eqb c' c || occurs c rest
  end.

(** The same collaborators with another key set. *)
Definition withKeys (env : Env) (keys : list Jwk) : Env :=
  {| getJwks := Resolved keys;
     jwkToPem := jwkToPem env;
     jwtVerify := jwtVerify env;
     crudGet := crudGet env;
     toLowerCase := toLowerCase env |}.

(** The header names changed by [rename], the values kept. *)
Definition renameHeaders (rename : string -> string)
    (hs : list (string * JsValue)) : list (string * JsValue) :=
  map (fun h => (rename (fst h), snd h)) hs.

Definition missingHeaderRun : Run :=
  ([Logged LDebug "Auth function invoked";
    Logged LInfo "Missing authorization header";
    Callback None (generatePolicy None)], Resolved tt).

Definition badFormatRun : Run :=
  ([Logged LDebug "Auth function invoked";
    Logged LInfo "Incorrect authorization header format";
    Callback None (generatePolicy None)], Resolved tt).

Definition badTypeRun : Run :=
  ([Logged LDebug "Auth function invoked";
    Logged LInfo "Invalid authorization type given";
    Callback None (generatePolicy None)], Resolved tt).

(** [ASCII] upper case, to have header names in another casing. *)
Definition upperChar (c : ascii) : ascii :=
  let k := nat_of_ascii c in
  if ((97 <=? k) && (k <=? 122))%nat then ascii_of_nat (k - 32) else c.

Fixpoint toUpperCase (s : string) : string :=
  match s with
  | EmptyString => EmptyString
  | String c rest => String (upperChar c) (toUpperCase rest)
  end.

(** A key store whose every key has the secret [a:b]. *)
Definition colonEnv : Env :=
  {| getJwks := Resolved [];
     jwkToPem := fun _ => Resolved "pem";
     jwtVerify := fun _ _ => Rejected (MkError "unused");
     crudGet := fun _ =>
       Resolved (Some {| secret := Some "a:b"; keyUser := "carol";
                         scopes := ["read"] |});
     toLowerCase := lowerAscii |}.

(** The scheme [api-Key] spelt with the Kelvin sign (U+212A, three bytes
    in UTF-8) for its K. *)
Definition kelvinScheme : string :=
  ("api-" ++
   String (ascii_of_nat 226) (String (ascii_of_nat 132)
     (String (ascii_of_nat 170) "ey")))%string.

(** As [demoEnv], with a [toLowerCase] that knows the Kelvin sign in
    that scheme. *)
Definition kelvinEnv : Env :=
  {| getJwks := getJwks demoEnv;
     jwkToPem := jwkToPem demoEnv;
     jwtVerify := jwtVerify demoEnv;
     crudGet := crudGet demoEnv;
     toLowerCase := fun s =>
       if bool_decide (s = kelvinScheme) then "api-key" else lowerAscii s |}.

(** A key store whose every key was stored without a secret. *)
Definition bareEnv : Env :=
  {| getJwks := Resolved [];
     jwkToPem := fun _ => Resolved "pem";
     jwtVerify := fun _ _ => Rejected (MkError "unused");
     crudGet := fun _ =>
       Resolved (Some {| secret := None; keyUser := "dave";
                         scopes := ["read"] |});
     toLowerCase := lowerAscii |}.

(** A run that called back exactly once if it resolved, and not at all
    if it rejected. *)
Definition once (run : Run) : Prop :=
  match snd run with
  | Resolved _ => exists policy, callbacks (fst run) = [policy]
  | Rejected _ => callbacks (fst run) = []
  end.

End AuthorizerAux.

(* ===================================================================== *)
(** * Part II: properties                                                 *)
(* ===================================================================== *)

Module DrainerFacts.
Import QueueDrainer Trace Handling.

(** ** Observations and concatenation *)

Lemma handledMessages_app t1 t2 :
  handledMessages (t1 ++ t2) = handledMessages t1 ++ handledMessages t2.
Proof.
  induction t1 as [|ev t1 IH]; [reflexivity|].
  destruct ev; simpl; rewrite IH; reflexivity.
Qed.

Lemma deleteRequests_app t1 t2 :
  deleteRequests (t1 ++ t2) = deleteRequests t1 ++ deleteRequests t2.
Proof.
  induction t1 as [|ev t1 IH]; [reflexivity|].
  destruct ev; simpl; rewrite IH; reflexivity.
Qed.

Lemma pollCalls_app t1 t2 :
  pollCalls (t1 ++ t2) = (pollCalls t1 + pollCalls t2)%nat.
Proof.
  induction t1 as [|ev t1 IH]; [reflexivity|].
  destruct ev; simpl; rewrite IH; reflexivity.
Qed.

Lemma polledBatches_app t1 t2 :
  polledBatches (t1 ++ t2) = polledBatches t1 ++ polledBatches t2.
Proof.
  induction t1 as [|ev t1 IH]; [reflexivity|].
  destruct ev as [| | ? ? [?|?] | | | |]; simpl; rewrite IH; reflexivity.
Qed.

Lemma budgetSamples_app t1 t2 :
  budgetSamples (t1 ++ t2) = budgetSamples t1 ++ budgetSamples t2.
Proof.
  induction t1 as [|ev t1 IH]; [reflexivity|].
  destruct ev; simpl; rewrite IH; reflexivity.
Qed.


Lemma scan_app {S : Type} (step : S -> Event -> option S) s t1 t2 :
  scan step s (t1 ++ t2) =
  match scan step s t1 with
  | Some s' => scan step s' t2
  | None => None
  end.
Proof.
  revert s. induction t1 as [|ev t1 IH]; intros s; simpl; [reflexivity|].
  destruct (step s ev); [apply IH | reflexivity].
Qed.






Lemma handlerEvents_silent tr :
  Forall handlerEvent tr ->
  deleteRequests tr = [] /\ pollCalls tr = O /\ polledBatches tr = [] /\
  budgetSamples tr = [] /\ errorLogs tr = [].
Proof.
  intros Hall. induction Hall as [|ev tr Hev _ IH]; simpl.
  - repeat split.
  - destruct ev; simpl in Hev; try destruct Hev; exact IH.
Qed.

Section Generic.
Context {W : Type} (this : Drainer W).

(** ** The processing loop *)

Lemma handleEach_cons m rest w :
  handleEach this (m :: rest) w =
  match handleMessage this m w with
  | (Resolved _, w1) =>
      match handleEach this rest w1 with
      | (r, w2, tr) =>
          (r, w2, EvHandleBegin m :: EvHandleEnd m (Resolved tt) :: tr)
      end
  | (Rejected e, w1) =>
      (Rejected e, w1, [EvHandleBegin m; EvHandleEnd m (Rejected e)])
  end.
Proof.
  simpl. unfold bind, callHandleMessage.
  destruct (handleMessage this m w) as [[[]|e] w1]; [|reflexivity].
  destruct (handleEach this rest w1) as [[r w2] tr]. reflexivity.
Qed.

Lemma handleEach_events messages w :
  Forall handlerEvent (trace_of (handleEach this messages w)).
Proof.
  revert w. induction messages as [|m rest IH]; intros w.
  - constructor.
  - rewrite handleEach_cons.
    destruct (handleMessage this m w) as [[[]|e] w1].
    + specialize (IH w1).
      destruct (handleEach this rest w1) as [[r w2] tr]. simpl in *.
      repeat constructor. exact IH.
    + simpl. repeat constructor.
Qed.

(** When the loop over the batch resolves, every message was handled,
    in order, each call ended before the next began. *)
Lemma handleEach_resolved messages w w' tr :
  handleEach this messages w = (Resolved tt, w', tr) ->
  tr = flat_map (fun m => [EvHandleBegin m; EvHandleEnd m (Resolved tt)])
         messages.
Proof.
  revert w w' tr. induction messages as [|m rest IH]; intros w w' tr.
  - simpl. unfold ret. intros H. inversion H. reflexivity.
  - rewrite handleEach_cons.
    destruct (handleMessage this m w) as [[[]|e] w1]; [|discriminate].
    destruct (handleEach this rest w1) as [[r w2] tr2] eqn:Hrest.
    intros H. inversion H; subst. simpl.
    rewrite (IH _ _ _ Hrest). reflexivity.
Qed.

Lemma handledMessages_pairs (messages : list Message) :
  handledMessages
    (flat_map (fun m => [EvHandleBegin m; EvHandleEnd m (Resolved tt)])
       messages) = messages.
Proof.
  induction messages as [|m rest IH]; simpl; [reflexivity|].
  rewrite IH. reflexivity.
Qed.

(** The messages handled are always an initial segment of the batch. *)
Lemma handleEach_prefix messages w :
  exists rest,
    messages = handledMessages (trace_of (handleEach this messages w)) ++ rest.
Proof.
  revert w. induction messages as [|m rest IH]; intros w.
  - exists []. reflexivity.
  - rewrite handleEach_cons.
    destruct (handleMessage this m w) as [[[]|e] w1].
    + destruct (IH w1) as [tail Htail].
      destruct (handleEach this rest w1) as [[r w2] tr]. simpl in *.
      exists tail. rewrite Htail at 1. reflexivity.
    + exists rest. reflexivity.
Qed.

(** A failure on the message after [before] stops the loop there. *)
Lemma handleEach_rejected before m after w w1 tr1 e w2 :
  handleEach this before w = (Resolved tt, w1, tr1) ->
  handleMessage this m w1 = (Rejected e, w2) ->
  handleEach this (before ++ m :: after) w =
  (Rejected e, w2, tr1 ++ [EvHandleBegin m; EvHandleEnd m (Rejected e)]).
Proof.
  revert w tr1. induction before as [|b before IH]; intros w tr1 Hpre Hm.
  - simpl in Hpre. unfold ret in Hpre. inversion Hpre; subst.
    simpl app. rewrite handleEach_cons, Hm. reflexivity.
  - rewrite handleEach_cons in Hpre. simpl app. rewrite handleEach_cons.
    destruct (handleMessage this b w) as [[[]|e'] w'] ; [|discriminate].
    destruct (handleEach this before w') as [[r w''] tr'] eqn:Hrest.
    inversion Hpre; subst.
    rewrite (IH _ _ Hrest Hm). reflexivity.
Qed.

Lemma processMessages_unfold messages w :
  processMessages this messages w =
  match handleEach this messages w with
  | (r, w1, tr) =>
      (r, w1,
       EvLog LDebug [("messageCount", LNum (length messages))]
         "processing messages" :: tr)
  end.
Proof.
  unfold processMessages, bind, log.
  destruct (handleEach this messages w) as [[r w1] tr]. reflexivity.
Qed.

(** ** The batched removal *)

Lemma deleteMessages_unfold messages w :
  deleteMessages this messages w =
  match deleteMessageBatch (sqs this) (queueUrl this)
          (map toEntry messages) w with
  | (Resolved d, w1) =>
      (Resolved tt, w1,
       [EvLog LDebug [("messageCount", LNum (length messages))]
          "deleting messages";
        EvDeleteBatch (queueUrl this) (map toEntry messages) (Resolved d);
        EvLog LDebug [("messageCount", LNum (length messages))]
          "deleted messages"])
  | (Rejected e, w1) =>
      (Rejected e, w1,
       [EvLog LDebug [("messageCount", LNum (length messages))]
          "deleting messages";
        EvDeleteBatch (queueUrl this) (map toEntry messages) (Rejected e)])
  end.
Proof.
  unfold deleteMessages, bind, log, callDeleteMessageBatch.
  destruct (deleteMessageBatch _ _ _ w) as [[d|e] w1]; reflexivity.
Qed.

Lemma poll_unfold k w :
  poll this k w =
  match receiveMessage (sqs this) (queueUrl this) k w with
  | (Resolved r, w1) =>
      (Resolved (batchOf r), w1,
       [EvReceive (queueUrl this) k (Resolved r)])
  | (Rejected e, w1) =>
      (Rejected e, w1, [EvReceive (queueUrl this) k (Rejected e)])
  end.
Proof.
  unfold poll, bind, callReceiveMessage, ret, batchOf.
  destruct (receiveMessage _ _ _ w) as [[r|e] w1]; reflexivity.
Qed.

(** ** One iteration, and the loop *)

Lemma iteration_unfold p c w :
  iteration this p c w =
  match receiveMessage (sqs this) (queueUrl this) 10 w with
  | (Rejected e, w1) =>
      (Rejected e, w1,
       [pollingLine p c; EvReceive (queueUrl this) 10 (Rejected e)])
  | (Resolved r, w1) =>
      let head :=
        [pollingLine p c; EvReceive (queueUrl this) 10 (Resolved r);
         processingLine (length (batchOf r))] in
      match handleEach this (batchOf r) w1 with
      | (Rejected e, w2, th) => (Rejected e, w2, head ++ th)
      | (Resolved _, w2, th) =>
          match deleteMessageBatch (sqs this) (queueUrl this)
                  (map toEntry (batchOf r)) w2 with
          | (Rejected e, w3) =>
              (Rejected e, w3,
               head ++ th ++
               [deletingLine (length (batchOf r));
                EvDeleteBatch (queueUrl this) (map toEntry (batchOf r))
                  (Rejected e)])
          | (Resolved d, w3) =>
              (Resolved ((p + length (batchOf r))%nat, (c + 1)%nat), w3,
               head ++ th ++
               [deletingLine (length (batchOf r));
                EvDeleteBatch (queueUrl this) (map toEntry (batchOf r))
                  (Resolved d);
                deletedLine (length (batchOf r))])
          end
      end
  end.
Proof.
  unfold iteration.
  unfold bind at 1.
  assert (Hlog :
    (if Nat.eqb (c mod 5)%nat 0
     then log LInfo [("pollCount", LNum c);
                     ("processedMessageCount", LNum p)] "polling..."
     else log LDebug [("pollCount", LNum c);
                      ("processedMessageCount", LNum p)] "polling...") w
    = (Resolved tt, w, [pollingLine p c])).
  { unfold pollingLine, log. destruct (Nat.eqb (c mod 5)%nat 0); reflexivity. }
  rewrite Hlog. clear Hlog.
  unfold bind at 1. rewrite poll_unfold.
  destruct (receiveMessage _ _ _ w) as [[r|e] w1]; [|reflexivity].
  unfold bind at 1. rewrite processMessages_unfold.
  destruct (handleEach this (batchOf r) w1) as [[[[]|e] w2] th]; [|reflexivity].
  unfold bind at 1. rewrite deleteMessages_unfold.
  destruct (deleteMessageBatch _ _ _ w2) as [[d|e] w3]; unfold ret; simpl;
    rewrite <- ?app_assoc; reflexivity.
Qed.

Lemma loop_unfold fuel p c w :
  loop this (S fuel) p c w =
  match getRemainingTime this w with
  | (t, w1) =>
      if 3000 <? t then
        match iteration this p c w1 with
        | (Resolved counters, w2, ti) =>
            match loop this fuel (fst counters) (snd counters) w2 with
            | (r, w3, tl) => (r, w3, EvRemainingTime t :: ti ++ tl)
            end
        | (Rejected e, w2, ti) => (Rejected e, w2, EvRemainingTime t :: ti)
        end
      else (Resolved (Done p c), w1, [EvRemainingTime t])
  end.
Proof.
  simpl. unfold bind at 1. unfold callGetRemainingTime.
  destruct (getRemainingTime this w) as [t w1]. unfold margin.
  destruct (3000 <? t); [|reflexivity].
  unfold bind.
  destruct (iteration this p c w1) as [[[counters|e] w2] ti]; [|reflexivity].
  destruct (loop this fuel (fst counters) (snd counters) w2) as [[r w3] tl].
  reflexivity.
Qed.

Lemma start_unfold fuel w :
  start this fuel w =
  match loop this fuel O O w with
  | (Resolved (Done p c), w1, tr) =>
      (Resolved (Done p c), w1, tr ++ [finishedLine p c])
  | (Resolved (Running p c), w1, tr) => (Resolved (Running p c), w1, tr)
  | (Rejected e, w1, tr) => (Rejected e, w1, tr)
  end.
Proof.
  unfold start, bind.
  destruct (loop this fuel O O w) as [[[[p c|p c]|e] w1] tr]; simpl;
    rewrite ?app_nil_r; reflexivity.
Qed.

(** What a completed iteration did, call by call. *)
Lemma iteration_resolved p c w counters w' tr :
  iteration this p c w = (Resolved counters, w', tr) ->
  exists r w1 w2 d,
    receiveMessage (sqs this) (queueUrl this) 10 w = (Resolved r, w1) /\
    handleEach this (batchOf r) w1 =
      (Resolved tt, w2,
       flat_map (fun m => [EvHandleBegin m; EvHandleEnd m (Resolved tt)])
         (batchOf r)) /\
    deleteMessageBatch (sqs this) (queueUrl this)
      (map toEntry (batchOf r)) w2 = (Resolved d, w') /\
    counters = ((p + length (batchOf r))%nat, (c + 1)%nat) /\
    tr = [pollingLine p c; EvReceive (queueUrl this) 10 (Resolved r);
          processingLine (length (batchOf r))] ++
         flat_map (fun m => [EvHandleBegin m; EvHandleEnd m (Resolved tt)])
           (batchOf r) ++
         [deletingLine (length (batchOf r));
          EvDeleteBatch (queueUrl this) (map toEntry (batchOf r))
            (Resolved d);
          deletedLine (length (batchOf r))].
Proof.
  rewrite iteration_unfold.
  destruct (receiveMessage _ _ _ w) as [[r|e] w1]; [|discriminate].
  destruct (handleEach this (batchOf r) w1) as [[[[]|e] w2] th] eqn:Hh;
    [|discriminate].
  destruct (deleteMessageBatch _ _ _ w2) as [[d|e] w3] eqn:Hd;
    [|discriminate].
  intros H. inversion H; subst.
  pose proof (handleEach_resolved _ _ _ _ Hh) as ->.
  exists r, w1, w2, d. repeat split; assumption.
Qed.

Lemma flat_pairs_events (messages : list Message) :
  Forall handlerEvent
    (flat_map (fun m => [EvHandleBegin m; EvHandleEnd m (Resolved tt)])
       messages).
Proof.
  induction messages as [|m rest IH]; simpl; repeat constructor. exact IH.
Qed.

Lemma iteration_resolved_observed p c w counters w' tr :
  iteration this p c w = (Resolved counters, w', tr) ->
  exists batch,
    counters = ((p + length batch)%nat, (c + 1)%nat) /\
    polledBatches tr = [batch] /\
    pollCalls tr = 1%nat /\
    handledMessages tr = batch /\
    deleteRequests tr = [map toEntry batch].
Proof.
  intros H.
  destruct (iteration_resolved _ _ _ _ _ _ H)
    as (r & w1 & w2 & d & _ & _ & _ & -> & ->).
  exists (batchOf r).
  destruct (handlerEvents_silent _ (flat_pairs_events (batchOf r)))
    as (Hd & Hp & Hb & _ & _).
  rewrite polledBatches_app, pollCalls_app, handledMessages_app,
    deleteRequests_app.
  rewrite polledBatches_app, pollCalls_app, handledMessages_app,
    deleteRequests_app.
  rewrite Hd, Hp, Hb, handledMessages_pairs. simpl.
  rewrite app_nil_r. repeat split; reflexivity.
Qed.






(** ** The budget gate *)


(** ** The counters *)


(** ** The batched removal *)


(** ** Processing *)

(** Processing resolves exactly when the handler, called on the
    messages in order, resolves each time. *)
Lemma handleEach_in_order messages w w' tr :
  handleEach this messages w = (Resolved tt, w', tr) <->
  HandledInOrder this messages w w' /\
  tr = flat_map (fun m => [EvHandleBegin m; EvHandleEnd m (Resolved tt)])
         messages.
Proof.
  revert w w' tr. induction messages as [|m rest IH]; intros w w' tr.
  - simpl. unfold ret. split.
    + intros H. inversion H; subst. split; [constructor|reflexivity].
    + intros [H ->]. inversion H; subst. reflexivity.
  - rewrite handleEach_cons. split.
    + destruct (handleMessage this m w) as [[[]|e] w1] eqn:Hm;
        [|discriminate].
      destruct (handleEach this rest w1) as [[r w2] tr2] eqn:Hrest.
      intros H. inversion H; subst.
      destruct (proj1 (IH _ _ _) Hrest) as [Hin ->].
      split; [|reflexivity]. econstructor; eassumption.
    + intros [H ->]. inversion H as [|? ? ? w1 ? Hm Hin]; subst.
      rewrite Hm.
      rewrite (proj2 (IH w1 w' _) (conj Hin eq_refl)). reflexivity.
Qed.

(** Fuel spent on cycles that completed can be topped up: the loop goes
    on from where it stood. *)
Lemma loop_split cycles more : forall p c w p' c' w' tr,
  loop this cycles p c w = (Resolved (Running p' c'), w', tr) ->
  loop this (cycles + more) p c w =
  match loop this more p' c' w' with
  | (r, w'', tr') => (r, w'', tr ++ tr')
  end.
Proof.
  induction cycles as [|cycles IH]; intros p c w p' c' w' tr H.
  - simpl in H. unfold ret in H. inversion H; subst. simpl.
    destruct (loop this more p' c' w') as [[r w''] tr']. reflexivity.
  - change (S cycles + more)%nat with (S (cycles + more)).
    rewrite loop_unfold in H. rewrite loop_unfold.
    destruct (getRemainingTime this w) as [t w1].
    destruct (3000 <? t); [|discriminate].
    destruct (iteration this p c w1) as [[[counters|e] w2] ti];
      [|discriminate].
    destruct (loop this cycles (fst counters) (snd counters) w2)
      as [[r0 w3] tl] eqn:Hl.
    inversion H; subst.
    rewrite (IH _ _ _ _ _ _ _ Hl).
    destruct (loop this more p' c' w') as [[r w''] tr'].
    cbn [app]. rewrite <- app_assoc. reflexivity.
Qed.

(** C2. Take any cycle of a run of the loop: the run has completed
    some cycles and stands at the head of the loop, the budget check
    passes, and the poll delivers a batch in which the handler accepts
    the first k-1 messages and fails on the k-th.  Then processing
    fails with the handler's error in the world the failing call left,
    and so does the run; in that cycle the handler was called on the
    first k messages and on none of the later ones, and no removal
    request was sent: the removal requests of the run are those of the
    earlier cycles, so no message of the batch is deleted. *)
Theorem handler_failure_skips_delete
    (cycles fuel p c : nat) (origin w w0 w1 w2 w3 : W)
    (earlier : list Event) (t : Z) (r : ReceiveMessageResult)
    (before after : list Message) (m : Message) (err : Error) :
  loop this cycles 0 0 origin = (Resolved (Running p c), w, earlier) ->
  getRemainingTime this w = (t, w0) ->
  3000 < t ->
  receiveMessage (sqs this) (queueUrl this) 10 w0 = (Resolved r, w1) ->
  batchOf r = before ++ m :: after ->
  HandledInOrder this before w1 w2 ->
  handleMessage this m w2 = (Rejected err, w3) ->
  processMessages this (batchOf r) w1 =
    (Rejected err, w3,
     processingLine (length (batchOf r)) ::
     flat_map (fun m => [EvHandleBegin m; EvHandleEnd m (Resolved tt)])
       before ++
     [EvHandleBegin m; EvHandleEnd m (Rejected err)]) /\
  exists cycle,
    start this (cycles + S fuel) origin =
      (Rejected err, w3, earlier ++ cycle) /\
    cycle =
      [EvRemainingTime t; pollingLine p c;
       EvReceive (queueUrl this) 10 (Resolved r);
       processingLine (length (batchOf r))] ++
      flat_map (fun m => [EvHandleBegin m; EvHandleEnd m (Resolved tt)])
        before ++
      [EvHandleBegin m; EvHandleEnd m (Rejected err)] /\
    handledMessages cycle = before ++ [m] /\
    deleteRequests cycle = [] /\
    pollCalls cycle = 1%nat /\
    deleteRequests (earlier ++ cycle) = deleteRequests earlier.
Proof.
  intros Hearlier Ht Hlt Hrecv Hbatch Hpre Hfail.
  pose proof (proj2 (handleEach_in_order before w1 w2 _) (conj Hpre eq_refl))
    as Hbefore.
  pose proof (handleEach_rejected _ _ after _ _ _ _ _ Hbefore Hfail) as Hh.
  rewrite <- Hbatch in Hh.
  split.
  { rewrite processMessages_unfold, Hh. reflexivity. }
  assert (Hb : (3000 <? t) = true) by (apply Z.ltb_lt; exact Hlt).
  eexists. split; [|split; [reflexivity|]].
  - rewrite start_unfold, (loop_split _ (S fuel) _ _ _ _ _ _ _ Hearlier).
    rewrite loop_unfold, Ht, Hb, iteration_unfold, Hrecv, Hh.
    reflexivity.
  - destruct (handlerEvents_silent _ (flat_pairs_events before))
      as (Hd & Hp & _).
    assert (Hcycle : deleteRequests
      ([EvRemainingTime t; pollingLine p c;
        EvReceive (queueUrl this) 10 (Resolved r);
        processingLine (length (batchOf r))] ++
       flat_map (fun m0 => [EvHandleBegin m0; EvHandleEnd m0 (Resolved tt)])
         before ++
       [EvHandleBegin m; EvHandleEnd m (Rejected err)]) = []).
    { cbn [app deleteRequests pollingLine processingLine].
      rewrite deleteRequests_app, Hd. reflexivity. }
    split; [|split; [exact Hcycle|split]].
    + cbn [app handledMessages pollingLine processingLine].
      rewrite handledMessages_app, handledMessages_pairs. reflexivity.
    + cbn [app pollCalls pollingLine processingLine].
      rewrite pollCalls_app, Hp. reflexivity.
    + rewrite deleteRequests_app, Hcycle, app_nil_r. reflexivity.
Qed.

(** ** The idle queue *)

(** When the transport answers a poll without any message, [poll]
    resolves with the empty list, whatever the number of messages
    asked for: the absence of messages is not an error.  The iteration
    that follows is a cycle like any other: the handler is called on
    nothing, the (empty) removal request is sent, and the iteration
    settles as that request does; once the request is answered the
    iteration has counted one more poll and no more messages. *)
Theorem empty_poll_is_a_normal_cycle (k p c : nat) (w w1 : W) :
  receiveMessage (sqs this) (queueUrl this) k w =
    (Resolved {| Messages := None |}, w1) ->
  receiveMessage (sqs this) (queueUrl this) 10 w =
    (Resolved {| Messages := None |}, w1) ->
  poll this k w =
    (Resolved [], w1,
     [EvReceive (queueUrl this) k (Resolved {| Messages := None |})]) /\
  processMessages this [] w1 = (Resolved tt, w1, [processingLine 0]) /\
  handledMessages (trace_of (iteration this p c w)) = [] /\
  iteration this p c w =
    match deleteMessages this [] w1 with
    | (outcome, w2, removal) =>
        (match outcome with
         | Resolved _ => Resolved ((p + 0)%nat, (c + 1)%nat)
         | Rejected e => Rejected e
         end,
         w2,
         [pollingLine p c;
          EvReceive (queueUrl this) 10 (Resolved {| Messages := None |});
          processingLine 0] ++ removal)
    end /\
  (forall d w2,
      deleteMessageBatch (sqs this) (queueUrl this) [] w1 =
        (Resolved d, w2) ->
      result_of (iteration this p c w) =
        Resolved ((p + 0)%nat, (c + 1)%nat)).
Proof.
  intros Hk H10.
  assert (Hit : iteration this p c w =
    match deleteMessages this [] w1 with
    | (outcome, w2, removal) =>
        (match outcome with
         | Resolved _ => Resolved ((p + 0)%nat, (c + 1)%nat)
         | Rejected e => Rejected e
         end,
         w2,
         [pollingLine p c;
          EvReceive (queueUrl this) 10 (Resolved {| Messages := None |});
          processingLine 0] ++ removal)
    end).
  { rewrite iteration_unfold, H10, deleteMessages_unfold.
    cbn [batchOf Messages handleEach ret map length].
    destruct (deleteMessageBatch _ _ _ w1) as [[d|e] w2]; reflexivity. }
  split; [rewrite poll_unfold, Hk; reflexivity|].
  split; [reflexivity|].
  split; [|split; [exact Hit|]].
  - rewrite Hit. destruct (deleteMessages this [] w1) as [[o w2] td] eqn:Hd.
    rewrite deleteMessages_unfold in Hd.
    destruct (deleteMessageBatch _ _ _ w1) as [[d|e] w3];
      inversion Hd; reflexivity.
  - intros d w2 Hd. rewrite Hit, deleteMessages_unfold. cbn [map].
    rewrite Hd. reflexivity.
Qed.

End Generic.

(** ** Processing, checked against the handler's own record *)

Lemma handleEach_recording {W : Type} (this : Drainer W) messages :
  forall w seen,
    handleEach (recording this) messages (w, seen) =
    match handleEach this messages w with
    | (r, w', tr) => (r, (w', seen ++ handledMessages tr), tr)
    end.
Proof.
  induction messages as [|m rest IH]; intros w seen.
  - simpl. unfold ret. rewrite app_nil_r. reflexivity.
  - rewrite !handleEach_cons. cbn [handleMessage recording fst snd].
    destruct (handleMessage this m w) as [[[]|e] w1]; [|reflexivity].
    rewrite IH.
    destruct (handleEach this rest w1) as [[r w2] tr].
    cbn [handledMessages]. rewrite <- app_assoc. reflexivity.
Qed.

(** C5. Processing a batch of n messages that the handler accepts
    calls the handler exactly n times, on the messages in the order of
    the batch, each call starting in the world the previous call left:
    processing resolves, ending in a world w', exactly when the handler
    called on the messages one after the other resolves each time and
    ends in w'.  A handler that keeps a record of what it is called on
    finds its record grown by exactly the messages of the batch, in
    order, without its calls, answers or worlds being otherwise
    changed.  Processing resolves as long as the handler accepts each
    message in the state it is called in, and what is handled is in any
    case an initial segment of the batch. *)
Theorem processMessages_handles_each_in_order
    {W : Type} (this : Drainer W) (messages : list Message) (w : W) :
  (exists rest,
      messages =
      handledMessages (trace_of (processMessages this messages w)) ++ rest)
  /\
  (forall accepting : W -> Prop,
      accepting w ->
      (forall m w0, In m messages -> accepting w0 ->
         exists w1,
           handleMessage this m w0 = (Resolved tt, w1) /\ accepting w1) ->
      result_of (processMessages this messages w) = Resolved tt) /\
  (forall w' tr,
      processMessages this messages w = (Resolved tt, w', tr) ->
      handledMessages tr = messages /\
      length (handledMessages tr) = length messages /\
      tr = processingLine (length messages) ::
           flat_map
             (fun m => [EvHandleBegin m; EvHandleEnd m (Resolved tt)])
             messages) /\
  (forall w' tr,
      processMessages this messages w = (Resolved tt, w', tr) <->
      HandledInOrder this messages w w' /\
      tr = processingLine (length messages) ::
           flat_map
             (fun m => [EvHandleBegin m; EvHandleEnd m (Resolved tt)])
             messages) /\
  (forall seen,
      processMessages (recording this) messages (w, seen) =
      match processMessages this messages w with
      | (r, w', tr) => (r, (w', seen ++ handledMessages tr), tr)
      end) /\
  (forall seen w' seen' tr,
      processMessages (recording this) messages (w, seen) =
        (Resolved tt, (w', seen'), tr) ->
      seen' = seen ++ messages /\
      length seen' = (length seen + length messages)%nat).
Proof.
  assert (Hrec : forall seen,
      processMessages (recording this) messages (w, seen) =
      match processMessages this messages w with
      | (r, w', tr) => (r, (w', seen ++ handledMessages tr), tr)
      end).
  { intros seen. rewrite !processMessages_unfold, handleEach_recording.
    destruct (handleEach this messages w) as [[r w'] tr]. reflexivity. }
  assert (Hres : forall w' tr,
      processMessages this messages w = (Resolved tt, w', tr) ->
      handledMessages tr = messages /\
      length (handledMessages tr) = length messages /\
      tr = processingLine (length messages) ::
           flat_map
             (fun m => [EvHandleBegin m; EvHandleEnd m (Resolved tt)])
             messages).
  { intros w' tr. rewrite processMessages_unfold.
    destruct (handleEach this messages w) as [[r w1] th] eqn:Hh.
    intros H. inversion H; subst.
    pose proof (handleEach_resolved this _ _ _ _ Hh) as ->.
    cbn [handledMessages]. rewrite handledMessages_pairs.
    repeat split; reflexivity. }
  split; [|split; [|split; [exact Hres|split; [|split; [exact Hrec|]]]]].
  - rewrite processMessages_unfold.
    destruct (handleEach_prefix this messages w) as [rest Hrest].
    destruct (handleEach this messages w) as [[r w1] tr].
    exists rest. exact Hrest.
  - intros accepting Hw Hok. rewrite processMessages_unfold.
    assert (Hok' : result_of (handleEach this messages w) = Resolved tt).
    { clear - Hw Hok. revert w Hw.
      induction messages as [|m rest IH]; intros w Hw; [reflexivity|].
      rewrite handleEach_cons.
      destruct (Hok m w (or_introl eq_refl) Hw) as (w1 & -> & Hw1).
      assert (Hrest : forall m' w0, In m' rest -> accepting w0 ->
                exists w1',
                  handleMessage this m' w0 = (Resolved tt, w1') /\
                  accepting w1').
      { intros m' w0 Hin. apply Hok. right. exact Hin. }
      specialize (IH Hrest w1 Hw1).
      destruct (handleEach this rest w1) as [[r w2] tr]. exact IH. }
    destruct (handleEach this messages w) as [[r w1] tr]. exact Hok'.
  - intros w' tr. rewrite processMessages_unfold. split.
    + destruct (handleEach this messages w) as [[r w1] th] eqn:Hh.
      intros H. inversion H; subst.
      destruct (proj1 (handleEach_in_order this _ _ _ _) Hh) as [Hin ->].
      split; [exact Hin | reflexivity].
    + intros [Hin ->].
      rewrite (proj2 (handleEach_in_order this messages w w' _)
                 (conj Hin eq_refl)).
      reflexivity.
  - intros seen w' seen' tr. rewrite Hrec.
    destruct (processMessages this messages w) as [[r w1] tr1] eqn:Hp.
    intros H. inversion H; subst.
    destruct (Hres _ _ eq_refl) as (Hh & _ & _).
    rewrite Hh, length_app. split; reflexivity.
Qed.

End DrainerFacts.

Module ScenarioFacts.
Import QueueDrainer Trace Handling Mock MoreScenarios DrainerFacts.

Lemma mock_handleEach_ok (batch : list Message) (w : World) :
  verdict w = alwaysOk ->
  handleEach drainer batch w =
  (Resolved tt, w,
   flat_map (fun m => [EvHandleBegin m; EvHandleEnd m (Resolved tt)]) batch).
Proof.
  intros Hok. induction batch as [|m rest IH]; [reflexivity|].
  rewrite handleEach_cons. cbn [handleMessage drainer handle].
  rewrite Hok. unfold alwaysOk at 1. rewrite IH. reflexivity.
Qed.

Lemma pairs_silent (batch : list Message) :
  let tr := flat_map
              (fun m => [EvHandleBegin m; EvHandleEnd m (Resolved tt)])
              batch in
  deleteRequests tr = [] /\ pollCalls tr = O /\ polledBatches tr = [] /\
  budgetSamples tr = [] /\ errorLogs tr = [].
Proof. apply handlerEvents_silent, flat_pairs_events. Qed.

(** Push an observation through a trace given as cons and append. *)
Ltac observe :=
  repeat first
    [ rewrite budgetSamples_app | rewrite pollCalls_app
    | rewrite polledBatches_app | rewrite handledMessages_app
    | rewrite deleteRequests_app
    | progress cbn [budgetSamples pollCalls polledBatches handledMessages
                    deleteRequests errorLogs app pollingLine processingLine
                    deletingLine deletedLine finishedLine delivers batchOf
                    Messages] ].

Lemma mock_loop_step fuel p c t ck ib v rm sr :
  loop drainer (S fuel) p c
    {| clock := t :: ck; inbox := ib; verdict := v; removals := rm;
       singleRemovals := sr |} =
  let w1 := {| clock := ck; inbox := ib; verdict := v; removals := rm;
               singleRemovals := sr |} in
  if 3000 <? t then
    match iteration drainer p c w1 with
    | (Resolved counters, w2, ti) =>
        match loop drainer fuel (fst counters) (snd counters) w2 with
        | (r, w3, tl) => (r, w3, EvRemainingTime t :: ti ++ tl)
        end
    | (Rejected e, w2, ti) => (Rejected e, w2, EvRemainingTime t :: ti)
    end
  else (Resolved (Done p c), w1, [EvRemainingTime t]).
Proof. rewrite loop_unfold. reflexivity. Qed.

Lemma mock_iteration_ok p c ck b later :
  iteration drainer p c
    {| clock := ck; inbox := delivers b :: later; verdict := alwaysOk;
       removals := []; singleRemovals := [] |} =
  (Resolved ((p + length b)%nat, (c + 1)%nat),
   {| clock := ck; inbox := later; verdict := alwaysOk;
      removals := []; singleRemovals := [] |},
   [pollingLine p c;
    EvReceive (queueUrl drainer) 10 (delivers b);
    processingLine (length b)] ++
   flat_map (fun m => [EvHandleBegin m; EvHandleEnd m (Resolved tt)]) b ++
   [deletingLine (length b);
    EvDeleteBatch (queueUrl drainer) (map toEntry b)
      (Resolved {| Failed := [] |});
    deletedLine (length b)]).
Proof.
  rewrite iteration_unfold.
  cbn [sqs receiveMessage deleteMessageBatch drainer receive removeBatch
       clock inbox verdict removals singleRemovals delivers batchOf
       Messages].
  rewrite mock_handleEach_ok by reflexivity. reflexivity.
Qed.

(** ** The budget scenario *)

(** C7. With the margin of 3000 ms and a clock that reads 10000, 6000
    and 2000 at the successive budget checks, the loop runs exactly two
    poll cycles, whatever the two batches delivered, and the third check
    ends the run: the result is [Done] with a poll count of two, the
    transport was polled twice, and the clock was read three times.
    This holds for every fuel that allows three budget checks. *)
Theorem budget_scenario_runs_two_cycles (b1 b2 : list Message) (fuel : nat) :
  let run := start drainer (3 + fuel) (budgetScenario b1 b2) in
  result_of run = Resolved (Done (length b1 + length b2) 2) /\
  budgetSamples (trace_of run) = [10000; 6000; 2000] /\
  pollCalls (trace_of run) = 2%nat /\
  polledBatches (trace_of run) = [b1; b2] /\
  handledMessages (trace_of run) = b1 ++ b2 /\
  deleteRequests (trace_of run) = [map toEntry b1; map toEntry b2].
Proof.
  cbv zeta. change (3 + fuel)%nat with (S (S (S fuel))).
  unfold budgetScenario.
  rewrite start_unfold.
  rewrite mock_loop_step. cbv zeta. change (3000 <? 10000) with true. cbv iota.
  rewrite mock_iteration_ok. cbn [fst snd].
  rewrite mock_loop_step. cbv zeta. change (3000 <? 6000) with true. cbv iota.
  rewrite mock_iteration_ok. cbn [fst snd].
  rewrite mock_loop_step. cbv zeta. change (3000 <? 2000) with false. cbv iota.
  cbn [result_of trace_of fst snd].
  destruct (pairs_silent b1) as (Hd1 & Hp1 & Hb1 & Hs1 & _).
  destruct (pairs_silent b2) as (Hd2 & Hp2 & Hb2 & Hs2 & _).
  cbv zeta in Hd1, Hp1, Hb1, Hs1, Hd2, Hp2, Hb2, Hs2.
  repeat split; observe;
    rewrite ?Hd1, ?Hp1, ?Hb1, ?Hs1, ?Hd2, ?Hp2, ?Hb2, ?Hs2,
      ?handledMessages_pairs, ?app_nil_r;
    reflexivity.
Qed.

(** ** Where the code departs from the design *)

(** C1 (not met by the code).  The design wants a failed batched removal
    logged and swallowed, the loop going on to its next poll.  Here the
    clock leaves time for three iterations, the poll delivers three
    messages, and the transport rejects the batched removal: the run
    ends rejected with the transport's error after one poll and one
    budget sample, and nothing is logged at error level.  The removal of
    a single message ([deleteMessage]) does what the design asks: on the
    same rejection it logs the failure and resolves. *)
Theorem batch_delete_failure_escapes_the_loop :
  result_of (start drainer 5 deleteFailureScenario) =
    Rejected (MkError "transport unavailable") /\
  errorLogs (trace_of (start drainer 5 deleteFailureScenario)) = [] /\
  pollCalls (trace_of (start drainer 5 deleteFailureScenario)) = 1%nat /\
  budgetSamples (trace_of (start drainer 5 deleteFailureScenario)) =
    [10000] /\
  clock (world_of (start drainer 5 deleteFailureScenario)) =
    [10000; 10000; 0] /\
  result_of (deleteMessages drainer threeMessages deleteFailureScenario) =
    Rejected (MkError "transport unavailable") /\
  result_of (deleteMessage drainer (msg "a") singleDeleteFailureScenario) =
    Resolved tt /\
  errorLogs
    (trace_of (deleteMessage drainer (msg "a") singleDeleteFailureScenario)) =
    ["failed to delete message"].
Proof. repeat split; vm_compute; reflexivity. Qed.

(** C4 (not met by the code).  The design wants a message without a
    receipt handle to fail fast and never reach the transport.  Here the
    poll delivers one message whose receipt handle is missing: the
    batched removal request goes out with an entry that has no receipt
    handle, and the run finishes normally.  The removal of a single
    message ([deleteMessage]) does what the design asks: it throws
    'missing receipt handle' before any call to the transport. *)
Theorem missing_receipt_handle_reaches_the_transport :
  result_of (start drainer 5 missingTokenScenario) = Resolved (Done 1 1) /\
  deleteRequests (trace_of (start drainer 5 missingTokenScenario)) =
    [[ {| Id := Some "m1"; EntryReceiptHandle := None |} ]] /\
  deleteMessage drainer noReceipt missingTokenScenario =
    (Rejected (MkError "missing receipt handle"), missingTokenScenario, []).
Proof. repeat split; vm_compute; reflexivity. Qed.

(** C9 (not met by the code).  The design wants the loop never to raise
    an error when no messages are available.  [poll] keeps to it: on a
    transport that answers without messages it resolves with the empty
    list.  But the cycle goes on to send a removal request with no
    entries, and here the transport rejects that request: the run ends
    rejected with the transport's error in its first cycle, although
    nothing was polled and the handler was never called, and nothing is
    logged at error level.  This is the missing catch of C1, met on the
    empty batch. *)
Theorem idle_queue_cycle_fails_with_its_removal :
  result_of (poll drainer 10 idleDeleteFailureScenario) = Resolved [] /\
  result_of (start drainer 5 idleDeleteFailureScenario) =
    Rejected (MkError "EmptyBatchRequest") /\
  polledBatches (trace_of (start drainer 5 idleDeleteFailureScenario)) =
    [[]] /\
  handledMessages (trace_of (start drainer 5 idleDeleteFailureScenario)) =
    [] /\
  deleteRequests (trace_of (start drainer 5 idleDeleteFailureScenario)) =
    [[]] /\
  budgetSamples (trace_of (start drainer 5 idleDeleteFailureScenario)) =
    [10000] /\
  errorLogs (trace_of (start drainer 5 idleDeleteFailureScenario)) = [].
Proof. repeat split; vm_compute; reflexivity. Qed.

(** ** The generic properties at work on a scripted world *)




(** C5 at a batch of three and a handler that accepts everything and
    keeps a record. *)
Lemma processMessages_handles_each_in_order_witness :
  result_of (processMessages drainer threeMessages steadyScenario) =
    Resolved tt /\
  handledMessages
    (trace_of (processMessages drainer threeMessages steadyScenario)) =
    threeMessages /\
  HandledInOrder drainer threeMessages steadyScenario steadyScenario /\
  snd (world_of (processMessages (recording drainer) threeMessages
                   (steadyScenario, [msg "earlier"]))) =
    [msg "earlier"] ++ threeMessages.
Proof.
  destruct (processMessages_handles_each_in_order drainer threeMessages
              steadyScenario) as (_ & Hres & Hall & Hiff & _ & Hrec).
  split; [|split; [|split]].
  - apply (Hres (fun w => verdict w = alwaysOk)); [reflexivity|].
    intros m w0 _ Hw0. exists w0. split; [|exact Hw0].
    unfold handleMessage, drainer, handle. rewrite Hw0. reflexivity.
  - exact (proj1 (Hall _ _ eq_refl)).
  - exact (proj1 (proj1 (Hiff _ _) eq_refl)).
  - exact (proj1 (Hrec [msg "earlier"] _ _ _ eq_refl)).
Defined.

(** C2 at a run whose first cycle completes and whose second cycle polls
    a batch of three and fails on its second message. *)
Lemma handler_failure_skips_delete_witness :
  exists cycle,
    start drainer 4 laterFailureScenario =
      (Rejected (MkError "handler failed"),
       {| clock := [8000; 0]; inbox := [delivers []];
          verdict := failsOn "b"; removals := []; singleRemovals := [] |},
       trace_of (loop drainer 1 0 0 laterFailureScenario) ++ cycle) /\
    handledMessages cycle = [msg "a"] ++ [msg "b"] /\
    deleteRequests cycle = [] /\
    deleteRequests
      (trace_of (loop drainer 1 0 0 laterFailureScenario) ++ cycle) =
      [[toEntry (msg "x")]].
Proof.
  pose (polled := {| clock := [8000; 0]; inbox := [delivers []];
                     verdict := failsOn "b"; removals := [];
                     singleRemovals := [] |}).
  assert (Hpre : HandledInOrder drainer [msg "a"] polled polled).
  { apply (handled_next drainer (msg "a") [] polled polled polled);
      [reflexivity | constructor]. }
  destruct (handler_failure_skips_delete drainer 1 2 1 1
              laterFailureScenario
              {| clock := [9000; 8000; 0];
                 inbox := [delivers threeMessages; delivers []];
                 verdict := failsOn "b"; removals := [];
                 singleRemovals := [] |}
              {| clock := [8000; 0];
                 inbox := [delivers threeMessages; delivers []];
                 verdict := failsOn "b"; removals := [];
                 singleRemovals := [] |}
              polled polled polled
              (trace_of (loop drainer 1 0 0 laterFailureScenario))
              9000 {| Messages := Some threeMessages |}
              [msg "a"] [msg "c"] (msg "b") (MkError "handler failed")
              eq_refl eq_refl eq_refl eq_refl eq_refl Hpre eq_refl)
    as (_ & cycle & Hrun & _ & Hh & Hd & _ & Hall).
  exists cycle. repeat split; assumption.
Defined.

(** The idle cycle at a transport that answers without a [Messages]
    field and accepts the removal request. *)
Lemma empty_poll_is_a_normal_cycle_witness :
  poll drainer 10 idleScenario =
    (Resolved [],
     {| clock := [10000; 0]; inbox := []; verdict := alwaysOk;
        removals := []; singleRemovals := [] |},
     [EvReceive (queueUrl drainer) 10 (Resolved {| Messages := None |})]) /\
  result_of (iteration drainer 0 0 idleScenario) = Resolved (O, 1%nat).
Proof.
  destruct (empty_poll_is_a_normal_cycle drainer 10 0 0 idleScenario _
              eq_refl eq_refl) as (Hp & _ & _ & _ & Hi).
  split; [exact Hp|]. exact (Hi _ _ eq_refl).
Defined.

End ScenarioFacts.

Module AuthorizerFacts.
Import Authorizer.

Lemma generatePolicy_document (result : option AuthResult) :
  policyDocument (generatePolicy result) =
  {| Version := "2012-10-17"; Statements := [allowInvoke] |}.
Proof. reflexivity. Qed.

Lemma unauthorized_generated : Forall generated (fst unauthorized).
Proof. repeat constructor. exists None. reflexivity. Qed.

Lemma authorized_generated user scope :
  Forall generated (fst (authorized user scope)).
Proof. repeat constructor. eexists. reflexivity. Qed.

Lemma andThen_logged level text run :
  Forall generated (fst run) ->
  Forall generated (fst (andThen [Logged level text] run)).
Proof. intros H. simpl. constructor; [exact I | exact H]. Qed.

Lemma authorizeBearer_generated env token :
  Forall generated (fst (authorizeBearer env token)).
Proof.
  unfold authorizeBearer, jwtCb.
  repeat case_match;
    auto using andThen_logged, unauthorized_generated, authorized_generated.
Qed.

Lemma authorizeApiKey_generated env token :
  Forall generated (fst (authorizeApiKey env token)).
Proof.
  unfold authorizeApiKey.
  repeat case_match;
    auto using andThen_logged, unauthorized_generated, authorized_generated.
Qed.

Lemma authorize_generated env event :
  Forall generated (fst (authorize env event)).
Proof.
  unfold authorize. apply andThen_logged.
  repeat case_match;
    auto using andThen_logged, unauthorized_generated, authorized_generated,
      authorizeBearer_generated, authorizeApiKey_generated.
Qed.

Lemma callbacks_generated outputs :
  Forall generated outputs ->
  Forall (fun policy => exists result, policy = generatePolicy result)
    (callbacks outputs).
Proof.
  intros H. induction H as [|o rest Ho _ IH]; simpl; [constructor|].
  destruct o as [level text|err policy]; [exact IH|].
  constructor; [exact (proj2 Ho) | exact IH].
Qed.

(** C10.  Every policy [authorize] hands to its callback, whether the
    caller was authorized or not, has the same policy document: one
    statement, allowing [execute-api:Invoke] on every resource.  The
    policies of the two outcomes differ in nothing else than this: the
    authorized one carries [principalId] and the [context] of user and
    scope, the unauthorized one carries neither. *)
Theorem authorize_always_allows (env : Env) (event : AuthEvent) :
  Forall
    (fun policy =>
       Statements (policyDocument policy) =
         [ {| Action := "execute-api:Invoke"; Effect := "Allow";
              Resource := "*" |} ] /\
       policyDocument policy = policyDocument (generatePolicy None) /\
       ((principalId policy = None /\ context policy = None) \/
        (exists user scope,
            principalId policy = Some user /\
            context policy =
              Some {| contextUser := user; contextScope := scope |})))
    (callbacks (fst (authorize env event))) /\
  (forall user scope,
      callbacks (fst unauthorized) = [generatePolicy None] /\
      callbacks (fst (authorized user scope)) =
        [generatePolicy (Some {| user := user; scope := scope |})] /\
      policyDocument (generatePolicy (Some {| user := user; scope := scope |}))
        = policyDocument (generatePolicy None) /\
      principalId (generatePolicy None) = None /\
      context (generatePolicy None) = None /\
      principalId (generatePolicy (Some {| user := user; scope := scope |}))
        = Some user /\
      context (generatePolicy (Some {| user := user; scope := scope |}))
        = Some {| contextUser := user; contextScope := scope |}).
Proof.
  split.
  - pose proof (callbacks_generated _ (authorize_generated env event)) as H.
    eapply Forall_impl; [exact H|].
    intros policy [[r|] ->]; repeat split; simpl; eauto.
  - intros user scope. repeat split.
Qed.

(** The four ways through [authorize], on a small key store. *)
Example authorize_examples :
  callbacks (fst (authorize demoEnv (withAuthorization "Bearer good"))) =
    [generatePolicy (Some {| user := "alice"; scope := "read write" |})] /\
  callbacks (fst (authorize demoEnv (withAuthorization "bearer forged"))) =
    [generatePolicy None] /\
  callbacks (fst (authorize demoEnv (withAuthorization "API-Key k1:s3cret")))
    = [generatePolicy (Some {| user := "bob"; scope := "read write" |})] /\
  callbacks (fst (authorize demoEnv (withAuthorization "api-key k1:wrong")))
    = [generatePolicy None] /\
  callbacks (fst (authorize demoEnv (withAuthorization "Basic abc"))) =
    [generatePolicy None] /\
  callbacks (fst (authorize demoEnv {| headers := Some [] |})) =
    [generatePolicy None] /\
  authorize demoEnv {| headers := None |} =
    ([Logged LDebug "Auth function invoked"],
     Rejected (MkError "TypeError: Cannot convert undefined or null to object")).
Proof. repeat split; vm_compute; reflexivity. Qed.

End AuthorizerFacts.

(** * Part III: further properties of the two programs *)

Module DrainerMore.
Import QueueDrainer Trace Discipline DrainerFacts.

Lemma errorLogs_app t1 t2 :
  errorLogs (t1 ++ t2) = errorLogs t1 ++ errorLogs t2.
Proof.
  induction t1 as [|ev t1 IH]; [reflexivity|].
  destruct ev as [[] ? ?| | | | | |]; simpl; rewrite IH; reflexivity.
Qed.

Lemma emitted_no_errorLogs url k tr :
  Forall (emitted url k) tr -> errorLogs tr = [].
Proof.
  intros H. induction H as [|ev tr Hev _ IH]; [reflexivity|].
  destruct ev as [[] ? ?| | | | | |]; simpl in *; try exact IH.
  destruct Hev. reflexivity.
Qed.

Lemma handlerEvents_emitted url k tr :
  Forall handlerEvent tr -> Forall (emitted url k) tr.
Proof.
  intros H. eapply Forall_impl; [exact H|].
  intros ev Hev. destruct ev; simpl in *; try exact I; destruct Hev.
Qed.

Section More.
Context {W : Type} (this : Drainer W).

(** ** The single-message removal *)

(** X1. [deleteMessage] throws exactly when the receipt handle is missing or
    empty, and then before any call to the transport.  With a handle it
    makes one removal call for that handle and always resolves: a
    rejection of the transport is logged at error level and goes no
    further. *)
Theorem deleteMessage_fails_only_without_handle (m : Message) (w : W) :
  (truthy (ReceiptHandle m) = false ->
   deleteMessage this m w =
     (Rejected (MkError "missing receipt handle"), w, [])) /\
  (forall h,
      ReceiptHandle m = Some h -> h <> EmptyString ->
      result_of (deleteMessage this m w) = Resolved tt /\
      world_of (deleteMessage this m w) =
        snd (sqsDeleteMessage (sqs this) (queueUrl this) h w) /\
      trace_of (deleteMessage this m w) =
        match fst (sqsDeleteMessage (sqs this) (queueUrl this) h w) with
        | Resolved u =>
            [EvDeleteMessage (queueUrl this) h (Resolved u)]
        | Rejected err =>
            [EvDeleteMessage (queueUrl this) h (Rejected err);
             EvLog LError [("err", LErr err); ("message", LMsg m)]
               "failed to delete message"]
        end).
Proof.
  split.
  - intros Hf. unfold deleteMessage. rewrite Hf. reflexivity.
  - intros h Hh Hne. unfold deleteMessage. rewrite Hh.
    assert (Ht : truthy (Some h) = true) by (destruct h; [congruence|reflexivity]).
    rewrite Ht. cbn [negb]. unfold try_catch, callDeleteMessage, log.
    destruct (sqsDeleteMessage (sqs this) (queueUrl this) h w)
      as [[[]|err] w1]; repeat split.
Qed.

(** ** A poll that fails *)

(** X2. When the transport rejects a poll, in whichever cycle, the run ends
    rejected with the transport's error right there: the handler is not
    called and no removal is requested in that cycle. *)
Theorem poll_failure_stops_the_run
    (fuel p c : nat) (w w0 w1 : W) (t : Z) (err : Error) :
  getRemainingTime this w = (t, w0) ->
  3000 < t ->
  receiveMessage (sqs this) (queueUrl this) 10 w0 = (Rejected err, w1) ->
  loop this (S fuel) p c w =
    (Rejected err, w1,
     [EvRemainingTime t; pollingLine p c;
      EvReceive (queueUrl this) 10 (Rejected err)]) /\
  (p = O -> c = O ->
   start this (S fuel) w =
     (Rejected err, w1,
      [EvRemainingTime t; pollingLine 0 0;
       EvReceive (queueUrl this) 10 (Rejected err)])).
Proof.
  intros Ht Hlt Hr.
  assert (Hb : (3000 <? t) = true) by (apply Z.ltb_lt; exact Hlt).
  assert (Hl : forall p' c', loop this (S fuel) p' c' w =
    (Rejected err, w1,
     [EvRemainingTime t; pollingLine p' c';
      EvReceive (queueUrl this) 10 (Rejected err)])).
  { intros p' c'. rewrite loop_unfold, Ht, Hb, iteration_unfold, Hr.
    reflexivity. }
  split; [apply Hl|].
  intros -> ->. rewrite start_unfold, Hl. reflexivity.
Qed.

(** ** What a run does to the outside *)

Lemma iteration_emitted p c w :
  Forall (emitted (queueUrl this) 10) (trace_of (iteration this p c w)).
Proof.
  assert (Hline : emitted (queueUrl this) 10 (pollingLine p c)).
  { unfold pollingLine. destruct (Nat.eqb (c mod 5) 0); discriminate. }
  rewrite iteration_unfold.
  destruct (receiveMessage _ _ _ w) as [[r|e] w1].
  - pose proof (handleEach_events this (batchOf r) w1) as Hev.
    apply (handlerEvents_emitted (queueUrl this) 10) in Hev.
    destruct (handleEach this (batchOf r) w1) as [[[[]|e] w2] th];
      cbn [trace_of snd] in *.
    + destruct (deleteMessageBatch _ _ _ w2) as [[d|e] w3];
        cbn [trace_of snd app];
        repeat (apply Forall_cons; split);
        try (apply Forall_app; split);
        repeat (apply Forall_cons; split);
        try apply Forall_nil; try exact Hev; try exact Hline;
        simpl; auto; discriminate.
    + cbn [app]. repeat (apply Forall_cons; split);
        try exact Hev; try exact Hline; simpl; auto; discriminate.
  - cbn [trace_of snd]. repeat (apply Forall_cons; split);
      try apply Forall_nil; try exact Hline; simpl; auto.
Qed.

Lemma loop_emitted fuel : forall p c w,
  Forall (emitted (queueUrl this) 10) (trace_of (loop this fuel p c w)).
Proof.
  induction fuel as [|fuel IH]; intros p c w; [constructor|].
  rewrite loop_unfold.
  destruct (getRemainingTime this w) as [t w1].
  destruct (3000 <? t); [|repeat constructor].
  pose proof (iteration_emitted p c w1) as Hit.
  destruct (iteration this p c w1) as [[[counters|e] w2] ti];
    cbn [trace_of snd] in *.
  - specialize (IH (fst counters) (snd counters) w2).
    destruct (loop this fuel (fst counters) (snd counters) w2)
      as [[r w3] tl]. cbn [trace_of snd] in *.
    apply Forall_cons; split; [exact I|].
    apply Forall_app; split; assumption.
  - apply Forall_cons; split; [exact I | exact Hit].
Qed.

(** X3. Whatever happens in a run of [start], every poll asks the queue of
    the drainer for 10 messages, every batched removal goes to that same
    queue, no single-message removal is issued, and nothing is logged at
    error level. *)
Theorem start_keeps_to_its_queue (fuel : nat) (w : W) :
  Forall (emitted (queueUrl this) 10) (trace_of (start this fuel w)) /\
  errorLogs (trace_of (start this fuel w)) = [].
Proof.
  assert (H : Forall (emitted (queueUrl this) 10)
                (trace_of (start this fuel w))).
  { rewrite start_unfold.
    pose proof (loop_emitted fuel O O w) as Hl.
    destruct (loop this fuel O O w) as [[[[p c|p c]|e] w1] tr];
      cbn [trace_of snd] in *; try exact Hl.
    apply Forall_app; split; [exact Hl|].
    repeat constructor. discriminate. }
  split; [exact H|]. exact (emitted_no_errorLogs _ _ _ H).
Qed.

(** ** A run that resolves has handled and listed all it polled *)

Lemma loop_resolved_totals fuel : forall p c w,
  match loop this fuel p c w with
  | (Resolved _, _, tr) =>
      handledMessages tr = concat (polledBatches tr) /\
      deleteRequests tr = map (map toEntry) (polledBatches tr)
  | (Rejected _, _, _) => True
  end.
Proof.
  induction fuel as [|fuel IH]; intros p c w.
  - simpl. split; reflexivity.
  - rewrite loop_unfold.
    destruct (getRemainingTime this w) as [t w1].
    destruct (3000 <? t); [|split; reflexivity].
    destruct (iteration this p c w1) as [[[counters|e] w2] ti] eqn:Hit;
      [|exact I].
    destruct (iteration_resolved_observed this _ _ _ _ _ _ Hit)
      as (batch & _ & Hb & _ & Hh & Hd).
    specialize (IH (fst counters) (snd counters) w2).
    destruct (loop this fuel (fst counters) (snd counters) w2)
      as [[[st|e] w3] tl]; [|exact I].
    destruct IH as [IHh IHd].
    cbn [handledMessages deleteRequests polledBatches].
    rewrite handledMessages_app, deleteRequests_app, polledBatches_app.
    rewrite Hb, Hh, Hd, IHh, IHd. simpl.
    split; reflexivity.
Qed.

(** X4. In a run of [start] that resolves, finished or cut at the head of
    the loop, the handler was called on exactly the messages polled, in
    the order polled, and the removal requests list exactly the batches
    polled, one request per batch and in the same order. *)
Theorem resolved_run_handles_and_lists_all_polled (fuel : nat) (w : W) :
  match start this fuel w with
  | (Resolved _, _, tr) =>
      handledMessages tr = concat (polledBatches tr) /\
      deleteRequests tr = map (map toEntry) (polledBatches tr)
  | (Rejected _, _, _) => True
  end.
Proof.
  rewrite start_unfold.
  pose proof (loop_resolved_totals fuel O O w) as Hl.
  destruct (loop this fuel O O w) as [[[[p c|p c]|e] w1] tr];
    [| exact Hl | exact I].
  rewrite handledMessages_app, deleteRequests_app, polledBatches_app.
  simpl. rewrite !app_nil_r. exact Hl.
Qed.

(** ** Removal only of what was handled *)

Lemma scan_handling_pairs handled (messages : list Message) :
  scan (handlingStep toEntry) handled
    (flat_map (fun m => [EvHandleBegin m; EvHandleEnd m (Resolved tt)])
       messages) = Some (handled ++ messages).
Proof.
  revert handled. induction messages as [|m rest IH]; intros handled.
  - simpl. rewrite app_nil_r. reflexivity.
  - simpl. rewrite IH, <- app_assoc. reflexivity.
Qed.

Lemma scan_handling_total handled tr :
  Forall handlerEvent tr ->
  exists handled', scan (handlingStep toEntry) handled tr = Some handled'.
Proof.
  intros H. revert handled.
  induction H as [|ev tr Hev _ IH]; intros handled; [eexists; reflexivity|].
  destruct ev as [| | | |m [u|e]| |]; simpl in *; try destruct Hev;
    apply IH.
Qed.

Lemma iteration_handling handled p c w :
  exists handled',
    scan (handlingStep toEntry) handled (trace_of (iteration this p c w)) =
    Some handled'.
Proof.
  rewrite iteration_unfold.
  destruct (receiveMessage _ _ _ w) as [[r|e] w1];
    [|eexists; reflexivity].
  pose proof (handleEach_events this (batchOf r) w1) as Hev.
  destruct (handleEach this (batchOf r) w1) as [[[[]|e] w2] th] eqn:Hh;
    cbn [trace_of snd] in Hev.
  - pose proof (handleEach_resolved this _ _ _ _ Hh) as ->.
    exists (batchOf r).
    destruct (deleteMessageBatch _ _ _ w2) as [[d|e] w3];
      cbn [trace_of snd app scan handlingStep pollingLine processingLine];
      rewrite scan_app, scan_handling_pairs;
      cbn [app scan handlingStep deletingLine deletedLine];
      rewrite bool_decide_eq_true_2 by reflexivity; reflexivity.
  - cbn [trace_of snd app scan handlingStep pollingLine processingLine].
    apply scan_handling_total. exact Hev.
Qed.

Lemma loop_handling fuel : forall handled p c w,
  accepted
    (scan (handlingStep toEntry) handled (trace_of (loop this fuel p c w)))
  = true.
Proof.
  induction fuel as [|fuel IH]; intros handled p c w; [reflexivity|].
  rewrite loop_unfold.
  destruct (getRemainingTime this w) as [t w1].
  destruct (3000 <? t); [|reflexivity].
  destruct (iteration_handling handled p c w1) as [handled' Hit].
  destruct (iteration this p c w1) as [[[counters|e] w2] ti];
    cbn [trace_of snd] in Hit.
  - specialize (IH handled' (fst counters) (snd counters) w2).
    destruct (loop this fuel (fst counters) (snd counters) w2)
      as [[r w3] tl].
    cbn [trace_of snd scan handlingStep] in *.
    rewrite scan_app, Hit. exact IH.
  - cbn [trace_of snd scan handlingStep]. rewrite Hit. reflexivity.
Qed.

(** X5. In every run of [start], also one that ends rejected, each batched
    removal request lists exactly the messages whose handling ended well
    since the last poll, in the order handled: no removal is requested
    for a message that was not handled first. *)
Theorem removal_requests_list_only_handled (fuel : nat) (w : W) :
  deletesOnlyHandled toEntry (trace_of (start this fuel w)) = true.
Proof.
  unfold deletesOnlyHandled. rewrite start_unfold.
  pose proof (loop_handling fuel [] O O w) as Hl.
  destruct (loop this fuel O O w) as [[[[p c|p c]|e] w1] tr];
    cbn [trace_of snd] in *; try exact Hl.
  rewrite scan_app.
  destruct (scan (handlingStep toEntry) [] tr); [reflexivity|discriminate].
Qed.

(** ** Budget samples and polls *)

Lemma iteration_polls_once p c w :
  pollCalls (trace_of (iteration this p c w)) = 1%nat /\
  budgetSamples (trace_of (iteration this p c w)) = [].
Proof.
  rewrite iteration_unfold.
  destruct (receiveMessage _ _ _ w) as [[r|e] w1]; [|split; reflexivity].
  pose proof (handleEach_events this (batchOf r) w1) as Hev.
  destruct (handleEach this (batchOf r) w1) as [[[[]|e] w2] th];
    cbn [trace_of snd] in Hev;
    destruct (handlerEvents_silent _ Hev) as (_ & Hp & _ & Hs & _).
  - destruct (deleteMessageBatch _ _ _ w2) as [[d|e] w3];
      cbn [trace_of snd app pollCalls budgetSamples pollingLine
           processingLine];
      rewrite pollCalls_app, budgetSamples_app, Hp, Hs; split; reflexivity.
  - cbn [trace_of snd app pollCalls budgetSamples pollingLine
         processingLine].
    rewrite Hp, Hs. split; reflexivity.
Qed.

Lemma loop_samples fuel : forall p c w,
  let run := loop this fuel p c w in
  pollCalls (trace_of run) =
    length (List.filter aboveMargin (budgetSamples (trace_of run))) /\
  match result_of run with
  | Resolved (Done _ _) =>
      exists above last,
        budgetSamples (trace_of run) = above ++ [last] /\
        last <= 3000 /\ Forall (fun t => 3000 < t) above
  | Resolved (Running _ _) =>
      Forall (fun t => 3000 < t) (budgetSamples (trace_of run)) /\
      length (budgetSamples (trace_of run)) = fuel
  | Rejected _ => Forall (fun t => 3000 < t) (budgetSamples (trace_of run))
  end.
Proof.
  induction fuel as [|fuel IH]; intros p c w; cbv zeta.
  - simpl. repeat split; constructor.
  - rewrite loop_unfold.
    destruct (getRemainingTime this w) as [t w1].
    destruct (3000 <? t) eqn:Hb.
    + assert (Hlt : 3000 < t) by (apply Z.ltb_lt; exact Hb).
      assert (Ha : aboveMargin t = true) by exact Hb.
      destruct (iteration_polls_once p c w1) as [Hp Hs].
      destruct (iteration this p c w1) as [[[counters|e] w2] ti];
        cbn [trace_of snd] in Hp, Hs.
      * specialize (IH (fst counters) (snd counters) w2). cbv zeta in IH.
        destruct (loop this fuel (fst counters) (snd counters) w2)
          as [[r w3] tl].
        cbn [trace_of result_of fst snd] in *.
        cbn [pollCalls budgetSamples].
        rewrite pollCalls_app, budgetSamples_app, Hp, Hs.
        cbn [app List.filter]. rewrite Ha.
        destruct IH as [IHp IHr]. split; [simpl; rewrite IHp; reflexivity|].
        destruct r as [[p' c'|p' c']|e].
        -- destruct IHr as (above & last & Heq & Hle & Hall).
           exists (t :: above), last. rewrite Heq.
           repeat split; [exact Hle|]. constructor; assumption.
        -- destruct IHr as [Hall Hlen]. split.
           ++ constructor; assumption.
           ++ simpl. rewrite Hlen. reflexivity.
        -- constructor; assumption.
      * cbn [trace_of result_of fst snd pollCalls budgetSamples].
        rewrite Hp, Hs. cbn [List.filter]. rewrite Ha.
        split; [reflexivity|]. repeat constructor. exact Hlt.
    + assert (Hle : t <= 3000) by (apply Z.ltb_ge; exact Hb).
      assert (Ha : aboveMargin t = false) by exact Hb.
      cbn [trace_of result_of fst snd pollCalls budgetSamples List.filter].
      rewrite Ha. split; [reflexivity|].
      exists [], t. repeat split; [exact Hle|constructor].
Qed.

(** X6. In every run of [start] the number of polls is the number of budget
    samples above 3000: each such sample is followed by exactly one
    poll, each other by none.  A run finishes ([Done]) exactly on the
    first sample that is at most 3000, which is then the last; a run
    that ends otherwise has seen only samples above 3000. *)
Theorem polls_match_samples_above_margin (fuel : nat) (w : W) :
  pollCalls (trace_of (start this fuel w)) =
    length (List.filter aboveMargin (budgetSamples (trace_of (start this fuel w))))
  /\
  match result_of (start this fuel w) with
  | Resolved (Done _ _) =>
      exists above last,
        budgetSamples (trace_of (start this fuel w)) = above ++ [last] /\
        last <= 3000 /\ Forall (fun t => 3000 < t) above
  | Resolved (Running _ _) =>
      Forall (fun t => 3000 < t)
        (budgetSamples (trace_of (start this fuel w))) /\
      length (budgetSamples (trace_of (start this fuel w))) = fuel
  | Rejected _ =>
      Forall (fun t => 3000 < t)
        (budgetSamples (trace_of (start this fuel w)))
  end.
Proof.
  rewrite start_unfold.
  pose proof (loop_samples fuel O O w) as Hl. cbv zeta in Hl.
  destruct (loop this fuel O O w) as [[[[p c|p c]|e] w1] tr];
    cbn [trace_of result_of fst snd] in *; try exact Hl.
  rewrite pollCalls_app, budgetSamples_app. simpl.
  rewrite Nat.add_0_r, app_nil_r. exact Hl.
Qed.

(** ** The lines logged at the head of each cycle *)

Lemma pollingLines_app t1 t2 :
  pollingLines (t1 ++ t2) = pollingLines t1 ++ pollingLines t2.
Proof.
  induction t1 as [|ev t1 IH]; [reflexivity|].
  destruct ev; simpl; rewrite ?IH; try reflexivity.
  destruct (bool_decide (text = "polling...")); simpl; rewrite ?IH;
    reflexivity.
Qed.

Lemma pollingLines_handler tr :
  Forall handlerEvent tr -> pollingLines tr = [].
Proof.
  intros H. induction H as [|ev tr Hev _ IH]; [reflexivity|].
  destruct ev; simpl in *; try destruct Hev; exact IH.
Qed.

Lemma pollingLine_read p c :
  pollingLines [pollingLine p c] = [(levelOfCycle c, Some c, Some p)].
Proof. reflexivity. Qed.

Lemma iteration_pollingLines p c w :
  pollingLines (trace_of (iteration this p c w)) =
  [(levelOfCycle c, Some c, Some p)].
Proof.
  rewrite iteration_unfold.
  destruct (receiveMessage _ _ _ w) as [[r|e] w1]; [|reflexivity].
  pose proof (handleEach_events this (batchOf r) w1) as Hev.
  destruct (handleEach this (batchOf r) w1) as [[[[]|e] w2] th];
    cbn [trace_of snd] in Hev;
    pose proof (pollingLines_handler _ Hev) as Hth.
  - destruct (deleteMessageBatch _ _ _ w2) as [[d|e] w3];
      cbn [trace_of snd];
      change (?a :: ?b :: ?c :: ?l) with ([a] ++ [b; c] ++ l) at 1;
      rewrite !pollingLines_app, Hth, pollingLine_read; reflexivity.
  - cbn [trace_of snd].
    change (?a :: ?b :: ?c :: ?l) with ([a] ++ [b; c] ++ l) at 1.
    rewrite !pollingLines_app, Hth, pollingLine_read. reflexivity.
Qed.

Lemma expectedLines_one p c batches :
  expectedLines p c batches 1 = [(levelOfCycle c, Some c, Some p)].
Proof.
  unfold expectedLines. simpl. unfold totalSize. simpl.
  rewrite !Nat.add_0_r. reflexivity.
Qed.

Lemma expectedLines_step p c batch batches cycles :
  expectedLines p c (batch :: batches) (S cycles) =
  (levelOfCycle c, Some c, Some p) ::
  expectedLines (p + length batch) (c + 1) batches cycles.
Proof.
  unfold expectedLines.
  change (seq 0 (S cycles)) with (0%nat :: seq 1 cycles).
  rewrite <- seq_shift, map_cons, map_map.
  f_equal.
  - unfold totalSize. simpl. rewrite !Nat.add_0_r. reflexivity.
  - apply map_ext. intros i.
    replace (c + S i)%nat with (c + 1 + i)%nat by lia.
    f_equal. f_equal. unfold totalSize. simpl. lia.
Qed.

Lemma loop_pollingLines fuel : forall p c w,
  pollingLines (trace_of (loop this fuel p c w)) =
  expectedLines p c (polledBatches (trace_of (loop this fuel p c w)))
    (pollCalls (trace_of (loop this fuel p c w))).
Proof.
  induction fuel as [|fuel IH]; intros p c w; [reflexivity|].
  rewrite loop_unfold.
  destruct (getRemainingTime this w) as [t w1].
  destruct (3000 <? t); [|reflexivity].
  pose proof (iteration_pollingLines p c w1) as Hlines.
  destruct (iteration_polls_once p c w1) as [Hp _].
  destruct (iteration this p c w1) as [[[counters|e] w2] ti] eqn:Hit;
    cbn [trace_of snd] in *.
  - destruct (iteration_resolved_observed this _ _ _ _ _ _ Hit)
      as (batch & -> & Hb & _).
    specialize (IH (p + length batch)%nat (c + 1)%nat w2).
    cbn [fst snd].
    destruct (loop this fuel (p + length batch)%nat (c + 1)%nat w2)
      as [[r w3] tl]. cbn [trace_of snd] in *.
    cbn [pollingLines polledBatches pollCalls].
    rewrite pollingLines_app, polledBatches_app, pollCalls_app.
    rewrite Hlines, Hb, Hp, IH.
    cbn [app Nat.add]. rewrite expectedLines_step. reflexivity.
  - cbn [pollingLines polledBatches pollCalls].
    rewrite Hlines, Hp, expectedLines_one. reflexivity.
Qed.

(** X7. In every run of [start] there is one line 'polling...' per poll.
    The line of the cycle that starts after i polls carries
    [pollCount] = i and [processedMessageCount] = the total size of the
    first i batches polled, and is logged at info level when i is a
    multiple of 5 and at debug level otherwise. *)
Theorem polling_lines_report_the_counters (fuel : nat) (w : W) :
  pollingLines (trace_of (start this fuel w)) =
  map (fun i =>
         (if Nat.eqb (i mod 5)%nat 0 then LInfo else LDebug,
          Some i,
          Some (totalSize
                  (firstn i (polledBatches (trace_of (start this fuel w)))))))
      (seq 0 (pollCalls (trace_of (start this fuel w)))).
Proof.
  assert (H : pollingLines (trace_of (start this fuel w)) =
              expectedLines 0 0
                (polledBatches (trace_of (start this fuel w)))
                (pollCalls (trace_of (start this fuel w)))).
  { rewrite start_unfold.
    pose proof (loop_pollingLines fuel O O w) as Hl.
    destruct (loop this fuel O O w) as [[[[p c|p c]|e] w1] tr];
      cbn [trace_of snd] in *; try exact Hl.
    rewrite pollingLines_app, polledBatches_app, pollCalls_app.
    simpl. rewrite !app_nil_r, Nat.add_0_r. exact Hl. }
  rewrite H. reflexivity.
Qed.

End More.

End DrainerMore.

Module AuthorizerMore.
Import Authorizer AuthorizerAux.

(** ** Strings *)

Lemma lower_upper_char c : lowerChar (upperChar c) = lowerChar c.
Proof. destruct c as [[] [] [] [] [] [] [] []]; reflexivity. Qed.

Lemma lower_upper s : lowerAscii (toUpperCase s) = lowerAscii s.
Proof.
  induction s as [|c s IH]; [reflexivity|].
  simpl. rewrite lower_upper_char, IH. reflexivity.
Qed.

Lemma split_without_separator sep s :
  occurs sep s = false -> split sep s = [s].
Proof.
  induction s as [|c s IH]; [reflexivity|].
  simpl. intros H. apply orb_false_iff in H as [Hc Hs].
  rewrite Hc, (IH Hs). reflexivity.
Qed.

Lemma split_at_separator sep a b :
  occurs sep a = false ->
  split sep (a ++ String sep b) = a :: split sep b.
Proof.
  induction a as [|c a IH]; simpl.
  - intros _. rewrite Ascii.eqb_refl. reflexivity.
  - intros H. apply orb_false_iff in H as [Hc Ha].
    rewrite Hc, (IH Ha). reflexivity.
Qed.

Lemma split_parts_clean sep s :
  Forall (fun part => occurs sep part = false) (split sep s).
Proof.
  induction s as [|c s IH]; simpl.
  - repeat constructor.
  - destruct (Ascii.eqb c sep) eqn:Hc.
    + constructor; [reflexivity | exact IH].
    + destruct (split sep s) as [|piece pieces].
      * repeat constructor. simpl. rewrite Hc. reflexivity.
      * inversion IH as [|? ? Hp Hps]; subst.
        constructor; [|exact Hps]. simpl. rewrite Hc. exact Hp.
Qed.

Lemma occurs_length c s : occurs c s = true -> String.length s <> O.
Proof. destruct s; [discriminate | simpl; lia]. Qed.

Lemma occurs_app c a b :
  occurs c (a ++ b) = occurs c a || occurs c b.
Proof.
  induction a as [|c' a IH]; [reflexivity|].
  simpl. rewrite IH, orb_assoc. reflexivity.
Qed.

(** ** The headers *)

Lemma lowerCaseHeaders_snoc lower hs name value :
  lowerCaseHeaders lower (hs ++ [(name, value)]) =
  assign (lower name) value (lowerCaseHeaders lower hs).
Proof. unfold lowerCaseHeaders. rewrite fold_left_app. reflexivity. Qed.

Lemma lowerCaseHeaders_rename lower rename hs :
  (forall name, lower (rename name) = lower name) ->
  lowerCaseHeaders lower (renameHeaders rename hs) =
  lowerCaseHeaders lower hs.
Proof.
  intros Hr. unfold lowerCaseHeaders.
  generalize emptyObject.
  induction hs as [|[name value] hs IH]; intros acc; [reflexivity|].
  simpl. rewrite Hr. apply IH.
Qed.

(** An assignment to [authorization] is read back, whatever the object
    held or inherited before. *)
Lemma read_assign_authorization value o :
  readAuthorization (assign "authorization" value o) = value.
Proof.
  unfold assign. rewrite bool_decide_eq_false_2 by discriminate.
  unfold readAuthorization. cbn [own]. rewrite lookup_insert_eq.
  reflexivity.
Qed.

(** [authorize] looks at the headers only through what
    [headers.authorization] reads once the names are in lower case. *)
Lemma authorize_by_lookup env hs hs' :
  readAuthorization (lowerCaseHeaders (toLowerCase env) hs) =
  readAuthorization (lowerCaseHeaders (toLowerCase env) hs') ->
  authorize env {| headers := Some hs |} =
  authorize env {| headers := Some hs' |}.
Proof. intros H. unfold authorize. cbn [headers]. rewrite H. reflexivity. Qed.

(** X8. The casing of the header names does not matter: with every header
    renamed to a name that agrees with the old one up to case,
    [authorize] runs exactly as before. *)
Theorem header_names_ignore_case
    (env : Env) (rename : string -> string) (hs : list (string * JsValue)) :
  (forall name, toLowerCase env (rename name) = toLowerCase env name) ->
  authorize env {| headers := Some (renameHeaders rename hs) |} =
  authorize env {| headers := Some hs |}.
Proof.
  intros Hr. apply authorize_by_lookup.
  rewrite (lowerCaseHeaders_rename _ _ _ Hr). reflexivity.
Qed.

(** X9. When several headers are named [authorization] up to case, the last
    one in key order decides: the run is the one of an event that holds
    this header alone, under its own name or, lower case keeping
    [authorization] as it is, under the name [authorization]. *)
Theorem last_authorization_header_decides
    (env : Env) (hs : list (string * JsValue)) (name : string)
    (value : JsValue) :
  toLowerCase env name = "authorization" ->
  authorize env {| headers := Some (hs ++ [(name, value)]) |} =
    authorize env {| headers := Some [(name, value)] |} /\
  (toLowerCase env "authorization" = "authorization" ->
   authorize env {| headers := Some (hs ++ [(name, value)]) |} =
   authorize env {| headers := Some [("authorization", value)] |}).
Proof.
  intros Hn.
  assert (Hread :
    readAuthorization
      (lowerCaseHeaders (toLowerCase env) (hs ++ [(name, value)])) = value).
  { rewrite lowerCaseHeaders_snoc, Hn. apply read_assign_authorization. }
  split.
  - apply authorize_by_lookup. rewrite Hread.
    unfold lowerCaseHeaders. cbn [fold_left fst snd]. rewrite Hn.
    symmetry. apply read_assign_authorization.
  - intros Ha. apply authorize_by_lookup. rewrite Hread.
    unfold lowerCaseHeaders. cbn [fold_left fst snd]. rewrite Ha.
    symmetry. apply read_assign_authorization.
Qed.

(** X10. A header that cannot be used ends in the unauthorized policy without
    any collaborator being consulted.  When what [headers.authorization]
    reads (own, or inherited through a header named [__proto__]) is not
    a string, or is the empty string: 'Missing authorization header'.
    When it is a string that does not split at spaces into exactly two
    parts: 'Incorrect authorization header format'.  When its first
    part is, in lower case, neither [bearer] nor [api-key]: 'Invalid
    authorization type given'. *)
Theorem unusable_header_is_unauthorized
    (env : Env) (hs : list (string * JsValue)) :
  (((forall text,
        readAuthorization (lowerCaseHeaders (toLowerCase env) hs) <>
        JsString text) \/
    readAuthorization (lowerCaseHeaders (toLowerCase env) hs) =
      JsString "") ->
   authorize env {| headers := Some hs |} = missingHeaderRun) /\
  (forall value,
      readAuthorization (lowerCaseHeaders (toLowerCase env) hs) =
        JsString value ->
      value <> EmptyString ->
      length (split " " value) <> 2%nat ->
      authorize env {| headers := Some hs |} = badFormatRun) /\
  (forall type token,
      readAuthorization (lowerCaseHeaders (toLowerCase env) hs) =
        JsString (type ++ " " ++ token) ->
      occurs " " type = false -> occurs " " token = false ->
      toLowerCase env type <> "bearer" ->
      toLowerCase env type <> "api-key" ->
      authorize env {| headers := Some hs |} = badTypeRun).
Proof.
  split; [|split].
  - intros [H|H]; unfold authorize; cbn [headers].
    + destruct (readAuthorization (lowerCaseHeaders (toLowerCase env) hs))
        as [| |text| | |]; try reflexivity.
      exfalso. apply (H text). reflexivity.
    + rewrite H. reflexivity.
  - intros value H Hne Hlen. unfold authorize. cbn [headers]. rewrite H.
    destruct value as [|c value]; [congruence|]. cbn [String.length Nat.eqb].
    destruct (split " " (String c value)) as [|a [|b [|d rest]]];
      try reflexivity.
    simpl in Hlen. congruence.
  - intros type token H Ht Hk Hb Ha. unfold authorize. cbn [headers].
    rewrite H.
    assert (Hlen : String.length (type ++ " " ++ token) <> O).
    { apply (occurs_length " "). rewrite occurs_app. simpl.
      rewrite orb_true_r. reflexivity. }
    destruct (Nat.eqb (String.length (type ++ " " ++ token)) 0) eqn:Hz;
      [apply Nat.eqb_eq in Hz; contradiction|].
    change (type ++ " " ++ token)%string
      with (type ++ String " " token)%string.
    rewrite (split_at_separator _ _ _ Ht), (split_without_separator _ _ Hk).
    cbv zeta.
    rewrite bool_decide_eq_false_2 by exact Hb.
    rewrite bool_decide_eq_false_2 by exact Ha.
    reflexivity.
Qed.

(** X11. The scheme is matched on its lower-case form, whatever
    [toLowerCase] makes of it, and the token is passed on as it stands:
    a value [type token] with one space goes to the bearer check when
    [type] in lower case is [bearer], and to the key store when it is
    [api-key]. *)
Theorem scheme_is_matched_ignoring_case
    (env : Env) (hs : list (string * JsValue)) (type token : string) :
  readAuthorization (lowerCaseHeaders (toLowerCase env) hs) =
    JsString (type ++ " " ++ token) ->
  occurs " " type = false -> occurs " " token = false ->
  (toLowerCase env type = "bearer" ->
   authorize env {| headers := Some hs |} =
   andThen [Logged LDebug "Auth function invoked"]
     (authorizeBearer env token)) /\
  (toLowerCase env type = "api-key" ->
   authorize env {| headers := Some hs |} =
   andThen [Logged LDebug "Auth function invoked"]
     (authorizeApiKey env token)).
Proof.
  intros H Ht Hk.
  assert (Hrun : authorize env {| headers := Some hs |} =
    andThen [Logged LDebug "Auth function invoked"]
      (if bool_decide (toLowerCase env type = "bearer")
       then authorizeBearer env token
       else if bool_decide (toLowerCase env type = "api-key")
            then authorizeApiKey env token
            else andThen [Logged LInfo "Invalid authorization type given"]
                   unauthorized)).
  { unfold authorize. cbn [headers]. rewrite H.
    assert (Hlen : String.length (type ++ " " ++ token) <> O).
    { apply (occurs_length " "). rewrite occurs_app. simpl.
      rewrite orb_true_r. reflexivity. }
    destruct (Nat.eqb (String.length (type ++ " " ++ token)) 0) eqn:Hz;
      [apply Nat.eqb_eq in Hz; contradiction|].
    change (type ++ " " ++ token)%string
      with (type ++ String " " token)%string.
    rewrite (split_at_separator _ _ _ Ht), (split_without_separator _ _ Hk).
    reflexivity. }
  split; intros Hs; rewrite Hrun, Hs; reflexivity.
Qed.

(** The corners of the header object: a header named [__proto__] up to
    case whose value is an object lends its [authorization] to the
    headers; one whose value is a string is ignored; after one whose
    value is [null] a second [__proto__] header is an ordinary own
    property; and a scheme that only the environment's [toLowerCase]
    turns into [api-key] goes to the key store. *)
Example header_object_corners :
  authorize demoEnv
    {| headers :=
         Some [("__PROTO__",
                JsObject [("authorization", JsString "Bearer good")])] |} =
    andThen [Logged LDebug "Auth function invoked"]
      (authorizeBearer demoEnv "good") /\
  authorize demoEnv
    {| headers :=
         Some [("__proto__",
                JsObject [("authorization", JsString "Bearer good")]);
               ("Authorization", JsString "Bearer forged")] |} =
    andThen [Logged LDebug "Auth function invoked"]
      (authorizeBearer demoEnv "forged") /\
  authorize demoEnv
    {| headers := Some [("__proto__", JsString "Bearer good")] |} =
    missingHeaderRun /\
  authorize demoEnv
    {| headers :=
         Some [("__proto__", JsNull);
               ("__PROTO__",
                JsObject [("authorization", JsString "Bearer good")])] |} =
    missingHeaderRun /\
  authorize kelvinEnv (withAuthorization (kelvinScheme ++ " k1:s3cret")) =
    andThen [Logged LDebug "Auth function invoked"]
      (authorizeApiKey kelvinEnv "k1:s3cret").
Proof. repeat split; vm_compute; reflexivity. Qed.

(** ** The bearer check *)

Lemma generatePolicy_some_inj r r' :
  generatePolicy (Some r) = generatePolicy (Some r') -> r = r'.
Proof.
  destruct r as [u sc], r' as [u' sc']. unfold generatePolicy. simpl.
  intros H. inversion H. reflexivity.
Qed.

Lemma jwk_eta k : {| kty := kty k; n := n k; e := e k |} = k.
Proof. destruct k. reflexivity. Qed.

(** X12. The bearer check never rejects and calls back exactly once.  It
    calls back with an authorized policy exactly when the key set was
    obtained and is not empty, its first key converts to a PEM, and the
    token verifies against that PEM; the policy then carries the token's
    [sub] and [scope].  Every failure on the way gives the unauthorized
    policy.  Only the first key of the key set is ever used. *)
Theorem bearer_check_uses_first_key_only (env : Env) (token : string) :
  snd (authorizeBearer env token) = Resolved tt /\
  (exists policy, callbacks (fst (authorizeBearer env token)) = [policy]) /\
  (forall r,
      callbacks (fst (authorizeBearer env token)) = [generatePolicy (Some r)]
      <->
      exists k rest pem,
        getJwks env = Resolved (k :: rest) /\
        jwkToPem env k = Resolved pem /\
        jwtVerify env token pem = Resolved (Verified (user r) (scope r))) /\
  (forall k rest,
      authorizeBearer (withKeys env (k :: rest)) token =
      authorizeBearer (withKeys env [k]) token).
Proof.
  split; [|split; [|split]].
  - unfold authorizeBearer, jwtCb. repeat case_match; reflexivity.
  - unfold authorizeBearer, jwtCb. repeat case_match; eexists; reflexivity.
  - intros r. unfold authorizeBearer, jwtCb. split.
    + destruct (getJwks env) as [[|k rest]|err]; try discriminate.
      rewrite jwk_eta.
      destruct (jwkToPem env k) as [pem|err] eqn:Hpem; try discriminate.
      destruct (jwtVerify env token pem) as [[err|sub sc]|err] eqn:Hv;
        try discriminate.
      simpl. intros H. inversion H as [Hp].
      assert (Hr : {| user := sub; scope := sc |} = r).
      { apply generatePolicy_some_inj. unfold generatePolicy. simpl.
        destruct r. simpl in *. congruence. }
      subst r. exists k, rest, pem. repeat split; assumption.
    + intros (k & rest & pem & -> & Hpem & Hv).
      rewrite jwk_eta, Hpem, Hv. destruct r. reflexivity.
  - intros k rest. reflexivity.
Qed.

(** ** The key store check *)

(** X13. The key store check reads the token as [keyId:secret].  It rejects
    exactly when the key store does, and then without calling back.
    It calls back with an authorized policy exactly when the store holds
    a key under [keyId] whose secret is the part between the first and
    the second colon (for a key stored without a secret: when the token
    has no such part either); the policy then carries the key's user,
    and its scopes joined by single spaces. *)
Theorem api_key_is_authorized_on_exact_secret (env : Env) (token : string) :
  (forall err,
      snd (authorizeApiKey env token) = Rejected err <->
      crudGet env (nth O (split ":" token) EmptyString) = Rejected err) /\
  (forall err,
      snd (authorizeApiKey env token) = Rejected err ->
      fst (authorizeApiKey env token) = []) /\
  (forall r,
      callbacks (fst (authorizeApiKey env token)) = [generatePolicy (Some r)]
      <->
      exists key,
        crudGet env (nth O (split ":" token) EmptyString) =
          Resolved (Some key) /\
        nth_error (split ":" token) 1 = secret key /\
        user r = keyUser key /\
        scope r = join " " (scopes key)).
Proof.
  unfold authorizeApiKey.
  destruct (crudGet env (nth O (split ":" token) EmptyString))
    as [[key|]|err0].
  - destruct (bool_decide (secret key = nth_error (split ":" token) 1))
      eqn:Hd.
    + apply bool_decide_eq_true_1 in Hd.
      split; [|split].
      * intros err. split; discriminate.
      * intros err. discriminate.
      * intros r. split.
        -- simpl. intros H. inversion H.
           exists key. destruct r; simpl in *. repeat split; congruence.
        -- intros (key' & Hk & Hs & Hu & Hsc). inversion Hk; subst key'.
           destruct r; simpl in *. subst. reflexivity.
    + apply bool_decide_eq_false_1 in Hd.
      split; [|split].
      * intros err. split; discriminate.
      * intros err. discriminate.
      * intros r. split; [discriminate|].
        intros (key' & Hk & Hs & _). inversion Hk; subst key'. congruence.
  - split; [|split].
    + intros err. split; discriminate.
    + intros err. discriminate.
    + intros r. split; [discriminate|].
      intros (key' & Hk & _). discriminate.
  - split; [|split].
    + intros err. simpl. split; congruence.
    + reflexivity.
    + intros r. split; [discriminate|].
      intros (key' & Hk & _). discriminate.
Qed.

(** X14. A token without a colon carries no secret: it is authorized
    exactly when the store holds, under the whole token as key id, a
    key that has no secret either, and never against a key that has
    one.  Whatever follows a second colon is ignored:
    [keyId:secret:more] runs exactly as [keyId:secret]. *)
Theorem api_key_token_is_read_up_to_second_colon
    (env : Env) (keyId secret_ more : string) :
  occurs ":" keyId = false ->
  occurs ":" secret_ = false ->
  (forall r,
      callbacks (fst (authorizeApiKey env keyId)) = [generatePolicy (Some r)]
      <->
      exists key,
        crudGet env keyId = Resolved (Some key) /\
        secret key = None /\
        user r = keyUser key /\
        scope r = join " " (scopes key)) /\
  (forall key text r,
      crudGet env keyId = Resolved (Some key) ->
      secret key = Some text ->
      callbacks (fst (authorizeApiKey env keyId)) <>
      [generatePolicy (Some r)]) /\
  authorizeApiKey env (keyId ++ ":" ++ secret_ ++ ":" ++ more) =
  authorizeApiKey env (keyId ++ ":" ++ secret_).
Proof.
  intros Hk Hs.
  assert (Hiff : forall r,
      callbacks (fst (authorizeApiKey env keyId)) = [generatePolicy (Some r)]
      <->
      exists key,
        crudGet env keyId = Resolved (Some key) /\
        secret key = None /\
        user r = keyUser key /\
        scope r = join " " (scopes key)).
  { intros r. unfold authorizeApiKey.
    rewrite (split_without_separator _ _ Hk). cbn [nth nth_error].
    destruct (crudGet env keyId) as [[key|]|err].
    - destruct (bool_decide (secret key = None)) eqn:Hd.
      + apply bool_decide_eq_true_1 in Hd. split.
        * simpl. intros H. inversion H.
          exists key. destruct r; simpl in *. repeat split; congruence.
        * intros (key' & Hkey & _ & Hu & Hsc). inversion Hkey; subst key'.
          destruct r; simpl in *. subst. reflexivity.
      + apply bool_decide_eq_false_1 in Hd. split; [discriminate|].
        intros (key' & Hkey & Hnone & _). inversion Hkey; subst key'.
        contradiction.
    - split; [discriminate|]. intros (key' & Hkey & _). discriminate.
    - split; [discriminate|]. intros (key' & Hkey & _). discriminate. }
  split; [exact Hiff|]. split.
  - intros key text r Hget Hsec Hcb.
    apply Hiff in Hcb. destruct Hcb as (key' & Hget' & Hnone & _).
    congruence.
  - unfold authorizeApiKey.
    change (keyId ++ ":" ++ secret_ ++ ":" ++ more)%string
      with (keyId ++ String ":" (secret_ ++ String ":" more))%string.
    change (keyId ++ ":" ++ secret_)%string
      with (keyId ++ String ":" secret_)%string.
    rewrite !(split_at_separator _ _ _ Hk), (split_at_separator _ _ _ Hs),
      (split_without_separator _ _ Hs).
    reflexivity.
Qed.

(** X15. A key whose stored secret contains a colon can never be used: for
    every token that names it the check ends in 'API secret does not
    match'. *)
Theorem secret_with_colon_never_matches
    (env : Env) (token : string) (key : ApiKey) (text : string) :
  crudGet env (nth O (split ":" token) EmptyString) = Resolved (Some key) ->
  secret key = Some text ->
  occurs ":" text = true ->
  authorizeApiKey env token =
  andThen [Logged LInfo "API secret does not match"] unauthorized.
Proof.
  intros Hget Hsec Hocc. unfold authorizeApiKey. rewrite Hget, Hsec.
  rewrite bool_decide_eq_false_2; [reflexivity|].
  intros Heq. symmetry in Heq. apply nth_error_In in Heq.
  pose proof (split_parts_clean ":" token) as Hclean.
  rewrite Forall_forall in Hclean.
  apply list_elem_of_In in Heq. specialize (Hclean _ Heq). congruence.
Qed.

(** ** One callback *)

Lemma once_unauthorized : once unauthorized.
Proof. eexists. reflexivity. Qed.

Lemma once_authorized user scope : once (authorized user scope).
Proof. eexists. reflexivity. Qed.

Lemma once_logged level text run :
  once run -> once (andThen [Logged level text] run).
Proof. unfold once, andThen. simpl. intros H. exact H. Qed.

Lemma once_bearer env token : once (authorizeBearer env token).
Proof.
  unfold authorizeBearer, jwtCb.
  repeat case_match;
    auto using once_logged, once_unauthorized, once_authorized.
Qed.

Lemma once_apiKey env token : once (authorizeApiKey env token).
Proof.
  unfold authorizeApiKey.
  repeat case_match;
    auto using once_logged, once_unauthorized, once_authorized.
  reflexivity.
Qed.

Lemma bearer_resolves env token :
  snd (authorizeBearer env token) = Resolved tt.
Proof. unfold authorizeBearer, jwtCb. repeat case_match; reflexivity. Qed.

Lemma apiKey_rejected env token err :
  snd (authorizeApiKey env token) = Rejected err ->
  crudGet env (nth O (split ":" token) EmptyString) = Rejected err.
Proof.
  unfold authorizeApiKey.
  destruct (crudGet env (nth O (split ":" token) EmptyString))
    as [[key|]|err0]; try discriminate.
  - case_match; discriminate.
  - simpl. congruence.
Qed.

(** X16. Every invocation of [authorize] that resolves has called the
    callback exactly once; one that rejects has not called it at all.
    It rejects only when the event has no headers object or when the
    key store rejects. *)
Theorem authorize_calls_back_once (env : Env) (event : AuthEvent) :
  once (authorize env event) /\
  (forall err,
      snd (authorize env event) = Rejected err ->
      headers event = None \/ exists keyId, crudGet env keyId = Rejected err).
Proof.
  split.
  - unfold authorize. apply once_logged.
    repeat case_match;
      auto using once_logged, once_unauthorized, once_authorized,
        once_bearer, once_apiKey.
    reflexivity.
  - intros err. unfold authorize.
    destruct (headers event) as [hs|]; [|left; reflexivity].
    intros H. right. cbn [andThen snd] in H.
    repeat case_match; try discriminate.
    + rewrite bearer_resolves in H. discriminate.
    + eexists. eapply apiKey_rejected. exact H.
Qed.

End AuthorizerMore.

Module JwksFacts.
Import Authorizer Jwks.

Section CacheFacts.
Context {N : Type}.
Variable fetch : string -> N -> Outcome Response * N.
Variable issuer : string.

Lemma warm_cache_repeats calls (st : State N) promise :
  cachedJwts st = Some promise ->
  getJwksRepeatedly fetch issuer calls st = (repeat promise calls, st, []).
Proof.
  intros Hc. induction calls as [|calls IH]; [reflexivity|].
  simpl. unfold getJwks. rewrite Hc, IH. reflexivity.
Qed.

(** X17. The key set is fetched at most once.  From an empty cache, however
    many calls follow, only the first fetches (from the issuer's
    [.well-known/jwks.json]); every call returns the promise of that one
    fetch, and the network is not touched again.  From a filled cache no
    call fetches at all. *)
Theorem key_set_is_fetched_once (calls : nat) (net : N) :
  let url := (issuer ++ ".well-known/jwks.json")%string in
  let promise := checkResponse (fst (fetch url net)) in
  getJwksRepeatedly fetch issuer (S calls)
    {| cachedJwts := None; network := net |} =
    (repeat promise (S calls),
     {| cachedJwts := Some promise; network := snd (fetch url net) |},
     [url]) /\
  getJwksRepeatedly fetch issuer calls
    {| cachedJwts := Some promise; network := net |} =
    (repeat promise calls,
     {| cachedJwts := Some promise; network := net |}, []).
Proof.
  cbv zeta. split.
  - cbn [getJwksRepeatedly]. unfold getJwks at 1. cbn [cachedJwts network].
    destruct (fetch (issuer ++ ".well-known/jwks.json")%string net)
      as [r net'].
    rewrite (warm_cache_repeats calls _ (checkResponse r)) by reflexivity.
    reflexivity.
  - apply warm_cache_repeats. reflexivity.
Qed.

(** X18. A first fetch that fails is never retried: when it is rejected, or
    answered with a status other than 200 (whatever the body), every
    call from then on gets the same rejection, in the second case
    'failed to get jwts'.  A first fetch answered with status 200 gives
    every call what the body parses to. *)
Theorem failed_fetch_is_served_forever (calls : nat) (net : N) :
  let url := (issuer ++ ".well-known/jwks.json")%string in
  let run :=
    getJwksRepeatedly fetch issuer (S calls)
      {| cachedJwts := None; network := net |} in
  (forall err,
      fst (fetch url net) = Rejected err ->
      fst (fst run) = repeat (Rejected err) (S calls)) /\
  (forall response,
      fst (fetch url net) = Resolved response ->
      status response <> 200 ->
      fst (fst run) =
        repeat (Rejected (MkError "failed to get jwts")) (S calls)) /\
  (forall response,
      fst (fetch url net) = Resolved response ->
      status response = 200 ->
      fst (fst run) = repeat (json response) (S calls)).
Proof.
  cbv zeta.
  assert (Hrun :
    fst (fst (getJwksRepeatedly fetch issuer (S calls)
                {| cachedJwts := None; network := net |})) =
    repeat (checkResponse
              (fst (fetch (issuer ++ ".well-known/jwks.json")%string net)))
      (S calls)).
  { cbn [getJwksRepeatedly]. unfold getJwks at 1. cbn [cachedJwts network].
    destruct (fetch (issuer ++ ".well-known/jwks.json")%string net)
      as [r net'].
    rewrite (warm_cache_repeats calls _ (checkResponse r)) by reflexivity.
    reflexivity. }
  rewrite Hrun. split; [|split].
  - intros err ->. reflexivity.
  - intros response -> Hs. unfold checkResponse.
    apply Z.eqb_neq in Hs. rewrite Hs. reflexivity.
  - intros response -> Hs. unfold checkResponse.
    apply Z.eqb_eq in Hs. rewrite Hs. reflexivity.
Qed.

End CacheFacts.

End JwksFacts.

(** ** The further properties at work on concrete inputs *)

Module MoreWitnesses.
Import QueueDrainer Trace Discipline Mock MoreScenarios DrainerMore.
Import Authorizer AuthorizerAux AuthorizerMore Jwks JwksFacts.

Lemma deleteMessage_fails_only_without_handle_witness :
  deleteMessage drainer emptyReceipt singleDeleteFailureScenario =
    (Rejected (MkError "missing receipt handle"),
     singleDeleteFailureScenario, []) /\
  result_of (deleteMessage drainer (msg "a") singleDeleteFailureScenario) =
    Resolved tt.
Proof.
  split.
  - apply (deleteMessage_fails_only_without_handle drainer emptyReceipt
             singleDeleteFailureScenario).
    reflexivity.
  - apply (proj2 (deleteMessage_fails_only_without_handle drainer (msg "a")
                    singleDeleteFailureScenario) "a-receipt");
      [reflexivity | discriminate].
Defined.

Lemma poll_failure_stops_the_run_witness :
  result_of (start drainer 3 pollFailureScenario) =
    Rejected (MkError "throttled").
Proof.
  destruct (poll_failure_stops_the_run drainer 2 0 0 pollFailureScenario
              _ _ 10000 (MkError "throttled") eq_refl eq_refl eq_refl)
    as [_ H].
  rewrite (H eq_refl eq_refl). reflexivity.
Defined.

Lemma header_names_ignore_case_witness :
  authorize demoEnv
    {| headers :=
         Some (renameHeaders toUpperCase
                 [("host", JsString "api.example");
                  ("authorization", JsString "Bearer good")]) |} =
  authorize demoEnv
    {| headers :=
         Some [("host", JsString "api.example");
               ("authorization", JsString "Bearer good")] |}.
Proof.
  apply (header_names_ignore_case demoEnv toUpperCase).
  intros name. apply lower_upper.
Defined.

Lemma last_authorization_header_decides_witness :
  authorize demoEnv
    {| headers :=
         Some ([("authorization", JsString "Bearer forged")] ++
               [("Authorization", JsString "Bearer good")]) |} =
  authorize demoEnv
    {| headers := Some [("authorization", JsString "Bearer good")] |}.
Proof.
  apply (proj2 (last_authorization_header_decides demoEnv
                  [("authorization", JsString "Bearer forged")]
                  "Authorization" (JsString "Bearer good") eq_refl)).
  reflexivity.
Defined.

Lemma unusable_header_is_unauthorized_witness :
  authorize demoEnv {| headers := Some [("host", JsString "h")] |} =
    missingHeaderRun /\
  authorize demoEnv (withAuthorization "") = missingHeaderRun /\
  authorize demoEnv (withAuthorization "Bearer  good") = badFormatRun /\
  authorize demoEnv (withAuthorization "Basic abc") = badTypeRun.
Proof.
  split; [|split; [|split]].
  - apply (proj1 (unusable_header_is_unauthorized demoEnv
                    [("host", JsString "h")])).
    left. intros text. discriminate.
  - apply (proj1 (unusable_header_is_unauthorized demoEnv
                    [("Host", JsString "api.example");
                     ("Authorization", JsString "")])).
    right. reflexivity.
  - apply (proj1 (proj2 (unusable_header_is_unauthorized demoEnv
                           [("Host", JsString "api.example");
                            ("Authorization", JsString "Bearer  good")]))
             "Bearer  good"); [reflexivity | discriminate | ].
    simpl. lia.
  - apply (proj2 (proj2 (unusable_header_is_unauthorized demoEnv
                           [("Host", JsString "api.example");
                            ("Authorization", JsString "Basic abc")]))
             "Basic" "abc"); try reflexivity; discriminate.
Defined.

Lemma scheme_is_matched_ignoring_case_witness :
  authorize demoEnv (withAuthorization "BEARER good") =
    andThen [Logged LDebug "Auth function invoked"]
      (authorizeBearer demoEnv "good") /\
  authorize demoEnv (withAuthorization "Api-Key k1:s3cret") =
    andThen [Logged LDebug "Auth function invoked"]
      (authorizeApiKey demoEnv "k1:s3cret").
Proof.
  split.
  - apply (proj1 (scheme_is_matched_ignoring_case demoEnv
                    [("Host", JsString "api.example");
                     ("Authorization", JsString "BEARER good")]
                    "BEARER" "good" eq_refl eq_refl eq_refl)).
    reflexivity.
  - apply (proj2 (scheme_is_matched_ignoring_case demoEnv
                    [("Host", JsString "api.example");
                     ("Authorization", JsString "Api-Key k1:s3cret")]
                    "Api-Key" "k1:s3cret" eq_refl eq_refl eq_refl)).
    reflexivity.
Defined.

Lemma bearer_check_uses_first_key_only_witness :
  callbacks (fst (authorizeBearer demoEnv "good")) =
    [generatePolicy (Some {| user := "alice"; scope := "read write" |})].
Proof.
  apply (proj1 (proj2 (proj2 (bearer_check_uses_first_key_only demoEnv
                                "good")))).
  exists {| kty := "RSA"; n := "n"; e := "AQAB" |}, [], "pem".
  repeat split.
Defined.

Lemma api_key_is_authorized_on_exact_secret_witness :
  callbacks (fst (authorizeApiKey demoEnv "k1:s3cret")) =
    [generatePolicy (Some {| user := "bob"; scope := "read write" |})].
Proof.
  apply (proj2 (proj2 (api_key_is_authorized_on_exact_secret demoEnv
                         "k1:s3cret"))).
  exists {| secret := Some "s3cret"; keyUser := "bob";
            scopes := ["read"; "write"] |}.
  repeat split.
Defined.

Lemma api_key_token_is_read_up_to_second_colon_witness :
  authorizeApiKey demoEnv ("k1" ++ ":" ++ "s3cret" ++ ":" ++ "ignored") =
    authorizeApiKey demoEnv ("k1" ++ ":" ++ "s3cret") /\
  callbacks (fst (authorizeApiKey bareEnv "k1")) =
    [generatePolicy (Some {| user := "dave"; scope := "read" |})] /\
  callbacks (fst (authorizeApiKey demoEnv "k1")) <>
    [generatePolicy (Some {| user := "bob"; scope := "read write" |})].
Proof.
  split; [|split].
  - apply (api_key_token_is_read_up_to_second_colon demoEnv "k1" "s3cret"
             "ignored"); reflexivity.
  - apply (proj1 (api_key_token_is_read_up_to_second_colon bareEnv "k1"
                    "s" "m" eq_refl eq_refl)).
    exists {| secret := None; keyUser := "dave"; scopes := ["read"] |}.
    repeat split.
  - apply (proj1 (proj2 (api_key_token_is_read_up_to_second_colon demoEnv
                           "k1" "s" "m" eq_refl eq_refl))
             {| secret := Some "s3cret"; keyUser := "bob";
                scopes := ["read"; "write"] |} "s3cret");
      reflexivity.
Defined.

Lemma secret_with_colon_never_matches_witness :
  authorizeApiKey colonEnv "k1:a:b" =
  andThen [Logged LInfo "API secret does not match"] unauthorized.
Proof.
  apply (secret_with_colon_never_matches colonEnv "k1:a:b"
           {| secret := Some "a:b"; keyUser := "carol"; scopes := ["read"] |}
           "a:b");
    reflexivity.
Defined.

Lemma authorize_calls_back_once_witness :
  headers {| headers := None |} = None \/
  exists keyId,
    crudGet demoEnv keyId =
    Rejected (MkError "TypeError: Cannot convert undefined or null to object").
Proof.
  apply (proj2 (authorize_calls_back_once demoEnv {| headers := None |})).
  reflexivity.
Defined.

Lemma failed_fetch_is_served_forever_witness :
  fst (fst (getJwksRepeatedly scripted "https://issuer.example/" 3
              (coldStart
                 [Resolved {| status := 500; json := Resolved [] |};
                  Resolved {| status := 200; json := Resolved [] |}]))) =
  repeat (Rejected (MkError "failed to get jwts")) 3.
Proof.
  apply (proj1 (proj2 (failed_fetch_is_served_forever scripted
                         "https://issuer.example/" 2
                         [Resolved {| status := 500; json := Resolved [] |};
                          Resolved {| status := 200; json := Resolved [] |}]))
           {| status := 500; json := Resolved [] |});
    [reflexivity | discriminate].
Defined.

End MoreWitnesses.
